(** * NextStyle: a runtime style-object compiler

    Shallow embedding of the NextStyle engine (the [index.ts] carrying
    [RelationBuilder], [globalStore], [root], [resetStyle] and [toTextCss])
    and the properties of its serializer, hasher, rule compiler and store.

    Conventions of the embedding.
    - A JavaScript string is a [string]: one character per UTF-16 code unit
      (style keys and CSS texts are ASCII, so [charCodeAt] is the character
      code).
    - A JavaScript [Map] whose iteration order is observed ([rules]) is an
      association list in insertion order; the maps that are only read by
      key ([globalStore], [postcssCache]) are [gmap]s.
    - An object literal is the list of its own enumerable properties in the
      order [for ... in] and [Object.keys] visit them.
    - The PostCSS processor is a collaborator of the engine: a function
      [process] from text to text, a variable of the sections below. *)

From Stdlib Require Import NArith Ascii String List Lia.
From stdpp Require Import base option list strings sorting gmap.

Local Open Scope string_scope.
Local Open Scope list_scope.

Set Warnings "-register-all".

(** ** Strings as the code uses them *)

Module Js.

(** [s.charCodeAt(i)] of the character [c]. *)
Definition charCode (c : ascii) : N := N_of_ascii c.

(** The double quote character, code 34. *)
Definition dquote : ascii := ascii_of_N 34.

(** [a.join(sep)] on an array of strings. *)
Definition join (sep : string) (parts : list string) : string :=
  String.concat sep parts.

(** The line feed, code 10. *)
Definition newline : string := String (ascii_of_N 10) "".

(** [s.startsWith(p)]. *)
Definition startsWith (p s : string) : bool := String.prefix p s.

(** [s.slice(0, n)]. *)
Definition slice0 (n : nat) (s : string) : string := String.substring 0 n s.

(** [m.toLowerCase()] on one character. *)
Definition isUpper (c : ascii) : bool :=
  ((65 <=? charCode c) && (charCode c <=? 90))%N.

Definition toLowerCase (c : ascii) : ascii :=
  if isUpper c then ascii_of_N (charCode c + 32) else c.

(** Digit [d] of a radix up to 36: [0-9] then [a-z]. *)
Definition digitChar (d : N) : ascii :=
  if (d <? 10)%N then ascii_of_N (48 + d) else ascii_of_N (87 + d).

(** [n.toString(radix)] for a non-negative integer: most significant digit
    first, no leading zero, ["0"] for zero. The fuel is the bit length of
    [n], which bounds its number of digits in any radix from 2 up. *)
Fixpoint toStringRadix_go (fuel : nat) (radix n : N) (acc : string) : string :=
  match fuel with
  | O => acc
  | S fuel' =>
      let acc' := String (digitChar (n mod radix)) acc in
      if (n <? radix)%N then acc'
      else toStringRadix_go fuel' radix (n / radix) acc'
  end.

Definition toStringRadix (radix n : N) : string :=
  toStringRadix_go (S (N.to_nat (N.log2 n))) radix n "".

(** Reading a string of decimal digits. *)
Definition digitValue (c : ascii) : option N :=
  if ((48 <=? charCode c) && (charCode c <=? 57))%N
  then Some (charCode c - 48)%N else None.

Fixpoint parseDecimal (s : string) (acc : N) : option N :=
  match s with
  | EmptyString => Some acc
  | String c s' =>
      match digitValue c with
      | Some d => parseDecimal s' (10 * acc + d)%N
      | None => None
      end
  end.

(** A property key is an array index when it is the canonical decimal
    text of an integer below [2^32 - 1]; such keys are enumerated first,
    in ascending numeric order. *)
Definition arrayIndex (k : string) : option N :=
  match parseDecimal k 0 with
  | Some n =>
      if String.eqb (toStringRadix 10 n) k && (n <? 2 ^ 32 - 1)%N
      then Some n else None
  | None => None
  end.

End Js.

(** ** Values *)

(** A Number is carried by its [Number::toString] text: the engine only
    interpolates numbers into templates, passes them to [JSON.stringify]
    and tests their truthiness, and all three are functions of that text
    ([-0] and [0] both render as ["0"]). *)
Inductive number : Type :=
| NaN
| Infinity
| NegInfinity
| Finite (text : string).

Inductive value : Type :=
| VUndefined
| VNull
| VBool (b : bool)
| VNumber (n : number)
| VString (s : string)
| VArray (elems : list value)
| VObject (props : list (string * value)).

(** The own enumerable properties of an object, in enumeration order. *)
Abbreviation obj := (list (string * value)).

Definition numberToString (n : number) : string :=
  match n with
  | NaN => "NaN"
  | Infinity => "Infinity"
  | NegInfinity => "-Infinity"
  | Finite text => text
  end.

(** [ToBoolean]. *)
Definition truthy (v : value) : bool :=
  match v with
  | VUndefined | VNull => false
  | VBool b => b
  | VNumber NaN => false
  | VNumber (Finite text) => negb (String.eqb text "0")
  | VNumber _ => true
  | VString s => negb (String.eqb s "")
  | VArray _ | VObject _ => true
  end.

(** [value == null]. *)
Definition isNullish (v : value) : bool :=
  match v with
  | VUndefined | VNull => true
  | _ => false
  end.

(** [typeof value === "object"]. *)
Definition isObjectType (v : value) : bool :=
  match v with
  | VNull | VArray _ | VObject _ => true
  | _ => false
  end.

(** [`${ value }`]: [ToString]. *)
Fixpoint toStr (v : value) : string :=
  match v with
  | VUndefined => "undefined"
  | VNull => "null"
  | VBool true => "true"
  | VBool false => "false"
  | VNumber n => numberToString n
  | VString s => s
  | VArray elems =>
      Js.join ","
        (map (fun e => if isNullish e then "" else toStr e) elems)
  | VObject _ => "[object Object]"
  end.

(** *** Objects *)

Fixpoint obj_lookup (o : obj) (k : string) : option value :=
  match o with
  | [] => None
  | (k', v) :: o' => if String.eqb k' k then Some v else obj_lookup o' k
  end.

(** [o[k]]. *)
Definition obj_get (o : obj) (k : string) : value :=
  match obj_lookup o k with
  | Some v => v
  | None => VUndefined
  end.

(** [k in o] for an own property. *)
Definition obj_has (o : obj) (k : string) : bool :=
  match obj_lookup o k with
  | Some _ => true
  | None => false
  end.

(** [Object.keys(o)]. *)
Definition ownKeys (o : obj) : list string := map fst o.

Fixpoint obj_replace (o : obj) (k : string) (v : value) : obj :=
  match o with
  | [] => []
  | (k', v') :: o' =>
      if String.eqb k' k then (k', v) :: o' else (k', v') :: obj_replace o' k v
  end.

Fixpoint obj_insert_index (i : N) (k : string) (v : value) (o : obj) : obj :=
  match o with
  | [] => [(k, v)]
  | (k', v') :: o' =>
      match Js.arrayIndex k' with
      | Some j =>
          if (j <? i)%N then (k', v') :: obj_insert_index i k v o'
          else (k, v) :: o
      | None => (k, v) :: o
      end
  end.

(** Defining the data property [k]: an existing key keeps its place, a new
    array index goes among the indices, any other new key goes last. *)
Definition obj_set (o : obj) (k : string) (v : value) : obj :=
  if obj_has o k then obj_replace o k v
  else match Js.arrayIndex k with
       | Some i => obj_insert_index i k v o
       | None => o ++ [(k, v)]
       end.

(** [{ ...target, ...source }] continued: copying the properties of
    [source] onto [target], in [source]'s enumeration order. *)
Definition obj_assign (target source : obj) : obj :=
  fold_left (fun t p => obj_set t (fst p) (snd p)) source target.

(** [{ ...a, ...b }]. *)
Definition spread2 (a b : obj) : obj := obj_assign (obj_assign [] a) b.

(** The properties [for (const key in v)] visits, with [v[key]]: those of an
    object, the indices of an array or of a string, none for the other
    primitives. *)
Definition indexed {A} (f : A -> value) (l : list A) : obj :=
  map (fun p => (Js.toStringRadix 10 (N.of_nat (fst p)), f (snd p)))
      (combine (seq 0 (length l)) l).

Definition forIn (v : value) : obj :=
  match v with
  | VObject o => o
  | VArray elems => indexed (fun e => e) elems
  | VString s => indexed (fun c => VString (String c "")) (list_ascii_of_string s)
  | _ => []
  end.

(** ** Canonical serializer *)

(** [JSON.stringify] of a string: quoted, with the quote, the backslash
    and the control characters escaped. *)
Definition jsonEscape (c : ascii) : string :=
  let n := Js.charCode c in
  if (n =? 34)%N then String "\" (String Js.dquote "")
  else if (n =? 92)%N then "\\"
  else if (n =? 8)%N then "\b"
  else if (n =? 9)%N then "\t"
  else if (n =? 10)%N then "\n"
  else if (n =? 12)%N then "\f"
  else if (n =? 13)%N then "\r"
  else if (n <? 32)%N
       then "\u00" +:+ String (Js.digitChar (n / 16)) (String (Js.digitChar (n mod 16)) "")
  else String c "".

Fixpoint jsonEscapeAll (s : string) : string :=
  match s with
  | EmptyString => ""
  | String c s' => jsonEscape c +:+ jsonEscapeAll s'
  end.

Definition jsonQuote (s : string) : string :=
  String Js.dquote (jsonEscapeAll s +:+ String Js.dquote "").

(** [JSON.stringify] of a number: non-finite numbers give [null]. *)
Definition jsonNumber (n : number) : string :=
  match n with
  | Finite text => text
  | _ => "null"
  end.

(** A result that may be [undefined], interpolated into a template
    literal, and the same as an element of [Array.prototype.join]. *)
Definition interp (r : option string) : string := default "undefined" r.
Definition joined (r : option string) : string := default "" r.

(** [Object.keys(value).sort()]: the keys in ascending code-unit order. *)
Definition sortKeys (keys : list string) : list string :=
  merge_sort String.le keys.

(** ["key":text] of the object encoding; the key is not escaped. *)
Definition member (k text : string) : string :=
  String Js.dquote (k +:+ String Js.dquote (":" +:+ text)).

(** [stableStringify]; [None] is the [undefined] that [JSON.stringify]
    returns for [undefined]. The object case renders every property value
    where it stands and then lists the members by sorted key, see
    [stableStringify_object] for the equation in the shape of the code. *)
Fixpoint stableStringify (v : value) : option string :=
  match v with
  | VUndefined => None
  | VNull => Some "null"
  | VBool true => Some "true"
  | VBool false => Some "false"
  | VNumber n => Some (jsonNumber n)
  | VString s => Some (jsonQuote s)
  | VArray elems =>
      Some ("[" +:+ Js.join "," (map (fun e => joined (stableStringify e)) elems) +:+ "]")
  | VObject props =>
      let rendered :=
        map (fun p => (fst p, interp (stableStringify (snd p)))) props in
      let text k :=
        default "undefined" (snd <$> find (fun p => String.eqb (fst p) k) rendered) in
      Some ("{" +:+ Js.join "," (map (fun k => member k (text k)) (sortKeys (ownKeys props)))
            +:+ "}")
  end.

(** ** Deterministic hasher *)

Definition offsetBasis : N := 0xcbf29ce484222325.
Definition prime : N := 0x100000001b3.
Definition mask64 : N := 0xffffffffffffffff.

(** One turn of the loop of [createHashName]. *)
Definition hashStep (hash : N) (c : ascii) : N :=
  N.land (N.lxor hash (Js.charCode c) * prime) mask64.

(** The value of [hash] after the loop over [seed]. *)
Definition hashValue (seed : string) : N :=
  fold_left hashStep (list_ascii_of_string seed) offsetBasis.

Definition createHashName (seed : string) : string :=
  Js.slice0 9 (Js.toStringRadix 36 (hashValue seed)).

(** ** Rule text compiler *)

Fixpoint toKebabCase (prop : string) : string :=
  match prop with
  | EmptyString => ""
  | String c rest =>
      if Js.isUpper c then String "-" (String (Js.toLowerCase c) (toKebabCase rest))
      else String c (toKebabCase rest)
  end.

Definition MEDIA_MAP : list (string * string) :=
  [ ("_sm", "(min-width:640px)");
    ("_md", "(min-width:768px)");
    ("_lg", "(min-width:1024px)");
    ("_xl", "(min-width:1280px)");
    ("_xxl", "(min-width:1536px)") ].

Definition PSEUDOS : list string := [ "_hover"; "_focus"; "_active" ].

Record SerializeContext : Type := {
  selector : string;
  media : option string
}.

(** Truthiness of an optional string: [undefined] and the empty string are
    falsy. *)
Definition given (s : option string) : bool :=
  match s with
  | Some s => negb (String.eqb s "")
  | None => false
  end.

Definition mergeMedia (parent current : option string) : option string :=
  if negb (given parent) then current
  else if negb (given current) then parent
  else Some (interp parent +:+ " and " +:+ interp current).

(** The first loop of [serializeNested]: the declarations of [style]. *)
Definition declarations (style : value) : list string :=
  flat_map
    (fun p =>
       let key := fst p in
       let value := snd p in
       if isNullish value || isObjectType value || Js.startsWith "_" key then []
       else [toKebabCase key +:+ ":" +:+ toStr value])
    (forIn style).

(** The rule emitted for a non-empty list of declarations. *)
Definition ruleText (ctx : SerializeContext) (decls : list string) : string :=
  match decls with
  | [] => ""
  | _ =>
      let rule := selector ctx +:+ "{" +:+ Js.join ";" decls +:+ "}" in
      if given (media ctx) then "@media " +:+ interp (media ctx) +:+ "{" +:+ rule +:+ "}"
      else rule
  end.

(** [style[key]] for a reserved key: only objects carry one. *)
Definition reserved (style : value) (key : string) : value :=
  match style with
  | VObject props => obj_get props key
  | _ => VUndefined
  end.

(** [pseudo.slice(1)]. *)
Definition slice1 (s : string) : string :=
  match s with
  | EmptyString => ""
  | String _ rest => rest
  end.

Definition pseudoContext (ctx : SerializeContext) (pseudo : string) : SerializeContext :=
  {| selector := selector ctx +:+ ":" +:+ slice1 pseudo; media := media ctx |}.

Definition mediaContext (ctx : SerializeContext) (cond : string) : SerializeContext :=
  {| selector := selector ctx; media := mergeMedia (media ctx) (Some cond) |}.

(** [serializeNested]. The recursive calls go through [at_key], which finds
    [style[key]] among the properties and compiles it when it is truthy;
    [serializeNested_eq] states the equation in the shape of the code. *)
Fixpoint serializeNested (style : value) (ctx : SerializeContext) {struct style} : string :=
  let nested : string -> SerializeContext -> string :=
    match style with
    | VObject props =>
        (fix at_key (o : obj) (key : string) (ctx' : SerializeContext) {struct o} : string :=
           match o with
           | [] => ""
           | (k', v) :: o' =>
               if String.eqb k' key
               then (if truthy v then serializeNested v ctx' else "")
               else at_key o' key ctx'
           end) props
    | _ => fun _ _ => ""
    end in
  ruleText ctx (declarations style)
  +:+ String.concat "" (map (fun pseudo => nested pseudo (pseudoContext ctx pseudo)) PSEUDOS)
  +:+ String.concat "" (map (fun m => nested (fst m) (mediaContext ctx (snd m))) MEDIA_MAP).

(** One turn of the second and third loops of [serializeNested]:
    [const value = style[key]; if (!value) continue;
     css += serializeNested(value, ctx')]. *)
Definition compileAt (style : value) (key : string) (ctx' : SerializeContext) : string :=
  let value := reserved style key in
  if truthy value then serializeNested value ctx' else "".

(** ** Scope store *)

(** The [rules] map: a [Map] from rule key to transformed text, iterated in
    insertion order. *)
Module RuleMap.

Abbreviation t := (list (string * string)).

Definition is_key (k : string) (entry : string * string) : bool :=
  String.eqb (fst entry) k.

(** [m.has(k)]. *)
Definition has (m : t) (k : string) : bool := existsb (is_key k) m.

(** [m.get(k)]. *)
Definition get (m : t) (k : string) : option string :=
  snd <$> find (is_key k) m.

(** [m.delete(k)]. *)
Definition delete (m : t) (k : string) : t :=
  List.filter (fun entry => negb (is_key k entry)) m.

Fixpoint replace (m : t) (k text : string) : t :=
  match m with
  | [] => []
  | entry :: m' =>
      if is_key k entry then (k, text) :: m' else entry :: replace m' k text
  end.

(** [m.set(k, text)]: an existing key keeps its place, a new one goes
    last. *)
Definition set (m : t) (k text : string) : t :=
  if has m k then replace m k text else m ++ [(k, text)].

(** [m.values()] and [m.keys()], in iteration order. *)
Definition values (m : t) : list string := map snd m.
Definition keys (m : t) : list string := map fst m.

(** [m.size]. *)
Definition size (m : t) : nat := length m.

(** The entries stored under [k]. *)
Definition entries (m : t) (k : string) : t := List.filter (is_key k) m.

End RuleMap.

(** One facade instance. *)
Record NextStyle : Type := {
  prefix : string;
  rules : RuleMap.t;
  globalStore : gmap string obj
}.

(** The module-level transform cache together with the instance the
    operations run on. *)
Record Runtime : Type := {
  postcssCache : gmap string string;
  this : NextStyle
}.

(** [new NextStyle(prefix)] in a freshly loaded module. *)
Definition create (prefix : string) : NextStyle :=
  {| prefix := prefix; rules := []; globalStore := ∅ |}.

Definition fresh (prefix : string) : Runtime :=
  {| postcssCache := ∅; this := create prefix |}.

(** The constructor's default prefix. *)
Definition defaultPrefix : string := "next".

(** State passing for the operations. *)
Definition State (A : Type) : Type := Runtime -> A * Runtime.

Definition ret {A} (a : A) : State A := fun w => (a, w).

Definition bind {A B} (c : State A) (k : A -> State B) : State B :=
  fun w => let r := c w in k (fst r) (snd r).

Notation "x <- c ;; k" := (bind c (fun x => k))
  (at level 100, c at next level, right associativity).
Notation "c ;; k" := (bind c (fun _ => k))
  (at level 100, right associativity).

Definition getThis : State NextStyle := fun w => (this w, w).

Definition setRules (m : RuleMap.t) : State unit :=
  fun w =>
    (tt, {| postcssCache := postcssCache w;
            this := {| prefix := prefix (this w); rules := m;
                       globalStore := globalStore (this w) |} |}).

Definition setGlobalStore (g : gmap string obj) : State unit :=
  fun w =>
    (tt, {| postcssCache := postcssCache w;
            this := {| prefix := prefix (this w); rules := rules (this w);
                       globalStore := g |} |}).

(** The result and the final state of a run. *)
Definition result {A} (c : State A) (w : Runtime) : A := fst (c w).
Definition after {A} (c : State A) (w : Runtime) : Runtime := snd (c w).

Inductive PseudoState : Type := hover_state | focus_state | active_state.

Definition pseudoName (p : PseudoState) : string :=
  match p with
  | hover_state => "hover"
  | focus_state => "focus"
  | active_state => "active"
  end.

Inductive Combinator : Type := Adjacent | Child | Sibling | Descendant.

Definition combinatorText (c : Combinator) : string :=
  match c with
  | Adjacent => "+"
  | Child => ">"
  | Sibling => "~"
  | Descendant => " "
  end.

(** A relation builder: the source class name and the optional pseudo
    state; the facade it refers to is the instance of the [Runtime]. *)
Record RelationBuilder : Type := {
  source : string;
  pseudo : option PseudoState
}.

Section Engine.

(** [processor.process(cssText, { from: undefined }).css]. *)
Variable process : string -> string.

Definition postcssTransform (cssText : string) : State string :=
  fun w =>
    let cached := postcssCache w !! cssText in
    if given cached then (interp cached, w)
    else
      let result := process cssText in
      (result, {| postcssCache := <[cssText := result]> (postcssCache w);
                  this := this w |}).

(** The name [css] and [keyframes] build from the prefix and the hash of
    the canonical text (an object always has one, [stableStringify_object]). *)
Definition className (prefix : string) (style : value) : string :=
  prefix +:+ "_" +:+ createHashName (interp (stableStringify style)).

Definition css (style : obj) : State string :=
  ns <- getThis ;;
  let seed := interp (stableStringify (VObject style)) in
  let hash := createHashName seed in
  let className := prefix ns +:+ "_" +:+ hash in
  let key := "class:" +:+ className in
  (if negb (RuleMap.has (rules ns) key) then
     let raw := serializeNested (VObject style)
                  {| selector := "." +:+ className; media := None |} in
     cssText <- postcssTransform raw ;;
     setRules (RuleMap.set (rules ns) key cssText)
   else ret tt) ;;
  ret className.

Definition global (selector : string) (style : obj) : State unit :=
  ns <- getThis ;;
  let key := "global:" +:+ selector in
  let prev := default [] (globalStore ns !! key) in
  let merged := spread2 prev style in
  setGlobalStore (<[key := merged]> (globalStore ns)) ;;
  let raw := serializeNested (VObject merged)
               {| selector := selector; media := None |} in
  cssText <- postcssTransform raw ;;
  let kept := if RuleMap.has (rules ns) key then RuleMap.delete (rules ns) key
              else rules ns in
  setRules (RuleMap.set kept key cssText).

Definition root (style : obj) : State unit := global ":root" style.

Definition str (s : string) : value := VString s.
Definition num (text : string) : value := VNumber (Finite text).

Definition resetStyle : State unit :=
  global "html,body"
    [ ("maxWidth", str "100vw"); ("overflowX", str "hidden") ] ;;
  global "body"
    [ ("color", str "black"); ("background", str "white");
      ("MozOsxFontSmoothing", str "grayscale");
      ("WebkitFontSmoothing", str "antialiased");
      ("fontFamily", str "Arial, Helvetica, sans-serif") ] ;;
  global "*,*::before,*::after"
    [ ("margin", num "0"); ("padding", num "0"); ("boxSizing", str "border-box") ] ;;
  global "a"
    [ ("color", str "inherit"); ("textDecoration", str "none") ].

(** *** Relation builder *)

Definition when (source : string) : RelationBuilder :=
  {| source := source; pseudo := None |}.

Definition hover (b : RelationBuilder) : RelationBuilder :=
  {| source := source b; pseudo := Some hover_state |}.
Definition focus (b : RelationBuilder) : RelationBuilder :=
  {| source := source b; pseudo := Some focus_state |}.
Definition active (b : RelationBuilder) : RelationBuilder :=
  {| source := source b; pseudo := Some active_state |}.

(** The selector [emit] builds. *)
Definition relationSelector (b : RelationBuilder) (c : Combinator) (target : string) : string :=
  let pseudo := match pseudo b with
                | Some p => ":" +:+ pseudoName p
                | None => ""
                end in
  "." +:+ source b +:+ pseudo +:+ combinatorText c +:+ "." +:+ target.

Definition emit (b : RelationBuilder) (c : Combinator) (target : string) (style : obj)
  : State unit :=
  global (relationSelector b c target) style.

Definition adjacent (b : RelationBuilder) := emit b Adjacent.
Definition child (b : RelationBuilder) := emit b Child.
Definition sibling (b : RelationBuilder) := emit b Sibling.
Definition descendant (b : RelationBuilder) := emit b Descendant.

(** *** Keyframes and font faces *)

(** [`${ kebab(prop) }:${ o[prop] }`] for every enumerated property. *)
Definition allDeclarations (o : value) : list string :=
  map (fun p => toKebabCase (fst p) +:+ ":" +:+ toStr (snd p)) (forIn o).

Definition keyframesBody (frames : obj) : string :=
  fold_left
    (fun body p =>
       body +:+ fst p +:+ "{ " +:+ Js.join ";" (allDeclarations (snd p)) +:+ " }")
    frames "".

Definition keyframes (frames : obj) : State string :=
  ns <- getThis ;;
  let seed := interp (stableStringify (VObject frames)) in
  let hash := createHashName seed in
  let name := prefix ns +:+ "_" +:+ hash in
  let key := "@keyframes:" +:+ name in
  (if negb (RuleMap.has (rules ns) key) then
     cssText <- postcssTransform
                     ("@keyframes " +:+ name +:+ "{ " +:+ keyframesBody frames +:+ " }") ;;
     setRules (RuleMap.set (rules ns) key cssText)
   else ret tt) ;;
  ret name.

Definition fontFace (font : obj) : State unit :=
  ns <- getThis ;;
  let seed := interp (stableStringify (VObject font)) in
  let hash := createHashName seed in
  let key := "@font-face:" +:+ hash in
  if negb (RuleMap.has (rules ns) key) then
    cssText <- postcssTransform
                 ("@font-face{ " +:+ Js.join ";" (allDeclarations (VObject font)) +:+ " }") ;;
    setRules (RuleMap.set (rules ns) key cssText)
  else ret tt.

(** *** Export *)

Definition exportText (m : RuleMap.t) : option string :=
  if Nat.eqb (RuleMap.size m) 0 then None
  else Some (fold_left (fun cssText rule => cssText +:+ rule +:+ Js.newline) (RuleMap.values m) "").

Definition toTextCss : State (option string) :=
  ns <- getThis ;; ret (exportText (rules ns)).

End Engine.

(** ** The variant of [src/index.ts]

    The repository also carries an earlier [index.ts], whose facade has no
    [globalStore]: [global] stores a selector once and leaves a selector
    that is already stored as it is. Its compiler writes the rules with
    blanks inside the braces; the rest is the code above. *)
Module EarlierVariant.

Definition ruleText (ctx : SerializeContext) (decls : list string) : string :=
  match decls with
  | [] => ""
  | _ =>
      let rule := selector ctx +:+ "{ " +:+ Js.join "; " decls +:+ " }" in
      if given (media ctx) then "@media " +:+ interp (media ctx) +:+ "{ " +:+ rule +:+ " }"
      else rule
  end.

Fixpoint serializeNested (style : value) (ctx : SerializeContext) {struct style} : string :=
  let nested : string -> SerializeContext -> string :=
    match style with
    | VObject props =>
        (fix at_key (o : obj) (key : string) (ctx' : SerializeContext) {struct o} : string :=
           match o with
           | [] => ""
           | (k', v) :: o' =>
               if String.eqb k' key
               then (if truthy v then serializeNested v ctx' else "")
               else at_key o' key ctx'
           end) props
    | _ => fun _ _ => ""
    end in
  ruleText ctx (declarations style)
  +:+ String.concat "" (map (fun pseudo => nested pseudo (pseudoContext ctx pseudo)) PSEUDOS)
  +:+ String.concat "" (map (fun m => nested (fst m) (mediaContext ctx (snd m))) MEDIA_MAP).

Definition global (process : string -> string) (selector : string) (style : obj)
  : State unit :=
  ns <- getThis ;;
  let key := "global:" +:+ selector in
  if negb (RuleMap.has (rules ns) key) then
    let raw := serializeNested (VObject style)
                 {| selector := selector; media := None |} in
    cssText <- postcssTransform process raw ;;
    setRules (RuleMap.set (rules ns) key cssText)
  else ret tt.

Definition css (process : string -> string) (style : obj) : State string :=
  ns <- getThis ;;
  let seed := interp (stableStringify (VObject style)) in
  let hash := createHashName seed in
  let className := prefix ns +:+ "_" +:+ hash in
  let key := "class:" +:+ className in
  (if negb (RuleMap.has (rules ns) key) then
     let raw := serializeNested (VObject style)
                  {| selector := "." +:+ className; media := None |} in
     cssText <- postcssTransform process raw ;;
     setRules (RuleMap.set (rules ns) key cssText)
   else ret tt) ;;
  ret className.

(** [globalReset]: the reset of this variant, on the selector [*] alone. *)
Definition globalReset (process : string -> string) : State unit :=
  global process "html,body"
    [ ("maxWidth", str "100vw"); ("overflowX", str "hidden") ] ;;
  global process "body"
    [ ("color", str "black"); ("background", str "white");
      ("fontFamily", str "Arial, Helvetica, sans-serif");
      ("WebkitFontSmoothing", str "antialiased");
      ("MozOsxFontSmoothing", str "grayscale") ] ;;
  global process "*"
    [ ("boxSizing", str "border-box"); ("padding", num "0"); ("margin", num "0") ] ;;
  global process "a"
    [ ("color", str "inherit"); ("textDecoration", str "none") ].

Definition keyframesBody (frames : obj) : string :=
  fold_left
    (fun body p =>
       body +:+ fst p +:+ "{ " +:+ Js.join "; " (allDeclarations (snd p)) +:+ " }")
    frames "".

Definition keyframes (process : string -> string) (frames : obj) : State string :=
  ns <- getThis ;;
  let seed := interp (stableStringify (VObject frames)) in
  let hash := createHashName seed in
  let name := prefix ns +:+ "_" +:+ hash in
  let key := "@keyframes:" +:+ name in
  (if negb (RuleMap.has (rules ns) key) then
     cssText <- postcssTransform process
                  ("@keyframes " +:+ name +:+ "{ " +:+ keyframesBody frames +:+ " }") ;;
     setRules (RuleMap.set (rules ns) key cssText)
   else ret tt) ;;
  ret name.

Definition fontFace (process : string -> string) (font : obj) : State unit :=
  ns <- getThis ;;
  let seed := interp (stableStringify (VObject font)) in
  let hash := createHashName seed in
  let key := "@font-face:" +:+ hash in
  if negb (RuleMap.has (rules ns) key) then
    cssText <- postcssTransform process
                 ("@font-face{ " +:+ Js.join "; " (allDeclarations (VObject font)) +:+ " }") ;;
    setRules (RuleMap.set (rules ns) key cssText)
  else ret tt.

End EarlierVariant.

(** ** The style element

    [createElement("style", { children: cssText })]: the element type and
    the [children] property are all the facade puts into it. *)
Record StyleElement : Type := {
  elementType : string;
  children : string
}.

Definition createElement (elementType : string) (children : string) : StyleElement :=
  {| elementType := elementType; children := children |}.

(** [StyleProvider]. *)
Definition StyleProvider : State (option StyleElement) :=
  ns <- getThis ;;
  ret (if Nat.eqb (RuleMap.size (rules ns)) 0 then None
       else
         let cssText :=
           fold_left (fun cssText rule => cssText +:+ rule +:+ Js.newline)
                     (RuleMap.values (rules ns)) "" in
         Some (createElement "style" cssText)).

(** A processor that returns its input, for the concrete runs below. *)
Definition identityTransform (cssText : string) : string := cssText.

(** ** Vocabulary of the properties *)

(** The transform cache only holds outputs of the processor. *)
Definition cache_ok (process : string -> string) (w : Runtime) : Prop :=
  forall text cached, postcssCache w !! text = Some cached -> cached = process text.

(** The invariant of a runtime: the cache is coherent and the rule map,
    like every [Map], holds each key once. *)
Definition store_ok (process : string -> string) (w : Runtime) : Prop :=
  cache_ok process w /\ NoDup (RuleMap.keys (rules (this w))).

(** [sub] occurs in [s]. *)
Definition contains (sub s : string) : Prop :=
  exists before behind, s = before +:+ sub +:+ behind.

(** A scalar of a style description: a string or a number. *)
Definition scalar (v : value) : bool :=
  match v with
  | VString _ | VNumber _ => true
  | _ => false
  end.

(** [w'] is [w] with at most one rule added, at the end and under [key]:
    every rule of [w] keeps its key, its text and its place, and the
    accumulator is untouched. *)
Definition added_only (w w' : Runtime) (key : string) : Prop :=
  prefix (this w') = prefix (this w) /\
  globalStore (this w') = globalStore (this w) /\
  exists added,
    rules (this w') = rules (this w) ++ added /\
    (added = [] \/ exists text, added = [(key, text)]).

(** The place of the rule stored under [key] in the export order. *)
Fixpoint position (key : string) (m : RuleMap.t) : option nat :=
  match m with
  | [] => None
  | entry :: m' =>
      if RuleMap.is_key key entry then Some 0 else S <$> position key m'
  end.

(** Two values that are structurally equal, the keys of their objects
    possibly written in different orders; sequences keep their order. *)
Inductive reordered : value -> value -> Prop :=
| reordered_undefined : reordered VUndefined VUndefined
| reordered_null : reordered VNull VNull
| reordered_bool b : reordered (VBool b) (VBool b)
| reordered_number n : reordered (VNumber n) (VNumber n)
| reordered_string s : reordered (VString s) (VString s)
| reordered_array l1 l2 :
    Forall2 reordered l1 l2 -> reordered (VArray l1) (VArray l2)
| reordered_object o1 o o2 :
    NoDup (ownKeys o1) ->
    o1 ≡ₚ o ->
    Forall2 (fun p q => fst p = fst q /\ reordered (snd p) (snd q)) o o2 ->
    reordered (VObject o1) (VObject o2).

(** Induction on [reordered] that also gives the hypothesis for the
    elements of an array and for the property values of an object. *)
Section ReorderedInduction.

Variable P : value -> value -> Prop.

Hypothesis P_undefined : P VUndefined VUndefined.
Hypothesis P_null : P VNull VNull.
Hypothesis P_bool : forall b, P (VBool b) (VBool b).
Hypothesis P_number : forall n, P (VNumber n) (VNumber n).
Hypothesis P_string : forall s, P (VString s) (VString s).
Hypothesis P_array : forall l1 l2,
  Forall2 P l1 l2 -> P (VArray l1) (VArray l2).
Hypothesis P_object : forall o1 o o2,
  NoDup (ownKeys o1) -> o1 ≡ₚ o ->
  Forall2 (fun p q => fst p = fst q /\ P (snd p) (snd q)) o o2 ->
  P (VObject o1) (VObject o2).

Fixpoint reordered_induction (v1 v2 : value) (H : reordered v1 v2) {struct H} : P v1 v2 :=
  match H in reordered a b return P a b with
  | reordered_undefined => P_undefined
  | reordered_null => P_null
  | reordered_bool b => P_bool b
  | reordered_number n => P_number n
  | reordered_string s => P_string s
  | reordered_array l1 l2 HF =>
      P_array l1 l2
        ((fix elements l1 l2 (HF : Forall2 reordered l1 l2) {struct HF} : Forall2 P l1 l2 :=
            match HF in Forall2 _ a b return Forall2 P a b with
            | @List.Forall2_nil _ _ _ => @List.Forall2_nil _ _ _
            | @List.Forall2_cons _ _ _ x y l l' Hxy Hl =>
                @List.Forall2_cons _ _ _ x y l l' (reordered_induction x y Hxy) (elements l l' Hl)
            end) l1 l2 HF)
  | reordered_object o1 o o2 Hnd Hp HF =>
      P_object o1 o o2 Hnd Hp
        ((fix members o o2
            (HF : Forall2 (fun p q => fst p = fst q /\ reordered (snd p) (snd q)) o o2)
            {struct HF}
            : Forall2 (fun p q => fst p = fst q /\ P (snd p) (snd q)) o o2 :=
            match HF in Forall2 _ a b
                  return Forall2 (fun p q => fst p = fst q /\ P (snd p) (snd q)) a b with
            | @List.Forall2_nil _ _ _ => @List.Forall2_nil _ _ _
            | @List.Forall2_cons _ _ _ p q l l' Hpq Hl =>
                @List.Forall2_cons _ _ _ p q l l'
                  (match Hpq with
                   | conj Hk Hv => conj Hk (reordered_induction (snd p) (snd q) Hv)
                   end)
                  (members l l' Hl)
            end) o o2 HF)
  end.

End ReorderedInduction.

(** Reading a text of digits back in a radix up to 36; it states what
    [toString(radix)] renders. *)
Definition digitOf (c : ascii) : N :=
  if (Js.charCode c <=? 57)%N then (Js.charCode c - 48)%N else (Js.charCode c - 87)%N.

Fixpoint readRadix (radix : N) (s : string) (acc : N) : N :=
  match s with
  | EmptyString => acc
  | String c s' => readRadix radix s' (acc * radix + digitOf c)%N
  end.

(** A base-36 digit: [0-9] or [a-z]. *)
Definition isBase36 (c : ascii) : bool :=
  (((48 <=? Js.charCode c) && (Js.charCode c <=? 57))
   || ((97 <=? Js.charCode c) && (Js.charCode c <=? 122)))%N.

Definition allBase36 (s : string) : Prop :=
  Forall (fun c => isBase36 c = true) (list_ascii_of_string s).

(** A number that [JSON.stringify] writes as [null]. *)
Definition nonFinite (n : number) : bool :=
  match n with
  | Finite _ => false
  | _ => true
  end.



(** A property that the first loop of [serializeNested] passes over. *)
Definition skipped (p : string * value) : bool :=
  isNullish (snd p) || isObjectType (snd p) || Js.startsWith "_" (fst p).

(** The keys of CSS properties are never array indices. *)
Definition plainKeys (o : obj) : Prop :=
  NoDup (ownKeys o) /\ Forall (fun k => Js.arrayIndex k = None) (ownKeys o).

(** The facade [global] leaves behind when the processor answers every
    text, read off the facade it starts from. *)
Definition globalStep (process : string -> string) (ns : NextStyle)
  (sel : string) (style : obj) : NextStyle :=
  let key := "global:" +:+ sel in
  let merged := spread2 (default [] (globalStore ns !! key)) style in
  {| prefix := prefix ns;
     rules := RuleMap.delete (rules ns) key ++
              [(key, process (serializeNested (VObject merged)
                                {| selector := sel; media := None |}))];
     globalStore := <[key := merged]> (globalStore ns) |}.

(** The eight reserved keys. *)
Definition reservedKeys : list string := PSEUDOS ++ map fst MEDIA_MAP.

(** * Properties *)

(** ** Strings *)

Lemma append_cons (x : ascii) (a b : string) : String x a +:+ b = String x (a +:+ b).
Proof. reflexivity. Qed.

Lemma append_assoc (a b c : string) : (a +:+ b) +:+ c = a +:+ b +:+ c.
Proof. induction a as [|x a IH]; [done|]. rewrite !append_cons. by rewrite IH. Qed.

Lemma append_nil_r (a : string) : a +:+ "" = a.
Proof. induction a as [|x a IH]; [done|]. rewrite append_cons. by rewrite IH. Qed.

Lemma length_append (a b : string) :
  String.length (a +:+ b) = String.length a + String.length b.
Proof. induction a as [|x a IH]; [done|]. rewrite append_cons. simpl. by rewrite IH. Qed.

Lemma contains_refl (s : string) : contains s s.
Proof. exists "", "". by rewrite append_nil_r. Qed.

Lemma contains_append_l (sub a b : string) : contains sub a -> contains sub (a +:+ b).
Proof.
  intros (x & y & ->). exists x, (y +:+ b). by rewrite !append_assoc.
Qed.

Lemma contains_append_r (sub a b : string) : contains sub b -> contains sub (a +:+ b).
Proof.
  intros (x & y & ->). exists (a +:+ x), y. by rewrite !append_assoc.
Qed.

Lemma contains_join (sep d : string) (l : list string) :
  In d l -> contains d (Js.join sep l).
Proof.
  unfold Js.join. induction l as [|x l IH]; [done|].
  intros [->|Hin].
  - destruct l; [apply contains_refl|]. cbn [String.concat]. apply contains_append_l, contains_refl.
  - destruct l as [|y l]; [done|]. cbn [String.concat] in *.
    apply contains_append_r, contains_append_r. by apply IH.
Qed.

Lemma not_contains_empty (sub : string) : sub <> "" -> ~ contains sub "".
Proof.
  intros Hne (a & b & H). destruct a; [|done].
  destruct sub; [done|]. done.
Qed.

(** ** Digits *)

Lemma charCode_ascii_of_N (n : N) : (n < 256)%N -> Js.charCode (ascii_of_N n) = n.
Proof. intros H. unfold Js.charCode. by apply N_ascii_embedding. Qed.

Lemma digitChar_base36 (d : N) : (d < 36)%N -> isBase36 (Js.digitChar d) = true.
Proof.
  intros H. unfold isBase36, Js.digitChar.
  destruct (N.ltb_spec d 10); rewrite charCode_ascii_of_N by lia.
  - apply orb_true_iff. left. apply andb_true_iff. split; apply N.leb_le; lia.
  - apply orb_true_iff. right. apply andb_true_iff. split; apply N.leb_le; lia.
Qed.

Lemma toStringRadix_go_base36 (fuel : nat) (n : N) (acc : string) :
  allBase36 acc -> allBase36 (Js.toStringRadix_go fuel 36 n acc).
Proof.
  revert n acc. induction fuel as [|fuel IH]; intros n acc Hacc; [done|].
  cbn [Js.toStringRadix_go].
  assert (Hacc' : allBase36 (String (Js.digitChar (n mod 36)) acc)).
  { constructor; [|done]. apply digitChar_base36. by apply N.mod_lt. }
  destruct (n <? 36)%N; [done|]. by apply IH.
Qed.

Lemma toStringRadix_go_length_le (fuel k : nat) (n : N) (acc : string) :
  (n < 36 ^ N.of_nat (S k))%N ->
  String.length (Js.toStringRadix_go fuel 36 n acc) <= S k + String.length acc.
Proof.
  revert k n acc. induction fuel as [|fuel IH]; intros k n acc Hn; [simpl; lia|].
  cbn [Js.toStringRadix_go]. destruct (N.ltb_spec n 36) as [Hlt|Hge]; [simpl; lia|].
  destruct k as [|k].
  - change (36 ^ N.of_nat 1)%N with 36%N in Hn. lia.
  - etrans; [apply (IH k)|simpl; lia].
    apply N.Div0.div_lt_upper_bound.
    rewrite (Nat2N.inj_succ (S k)), N.pow_succ_r' in Hn. lia.
Qed.

Lemma toStringRadix_go_length_ge (fuel k : nat) (n : N) (acc : string) :
  (n < 2 ^ N.of_nat fuel)%N ->
  (36 ^ N.of_nat k <= n)%N ->
  S k + String.length acc <= String.length (Js.toStringRadix_go fuel 36 n acc).
Proof.
  revert k n acc. induction fuel as [|fuel IH]; intros k n acc Hfuel Hn.
  - change (2 ^ N.of_nat 0)%N with 1%N in Hfuel.
    pose proof (N.pow_nonzero 36 (N.of_nat k)). lia.
  - cbn [Js.toStringRadix_go]. destruct (N.ltb_spec n 36) as [Hlt|Hge].
    + destruct k as [|k]; [simpl; lia|].
      rewrite Nat2N.inj_succ, N.pow_succ_r' in Hn.
      pose proof (N.pow_nonzero 36 (N.of_nat k)). lia.
    + assert (Hdiv : (n / 36 < 2 ^ N.of_nat fuel)%N).
      { apply N.Div0.div_lt_upper_bound.
        rewrite Nat2N.inj_succ, N.pow_succ_r' in Hfuel. lia. }
      destruct k as [|k].
      * etrans; [|apply (IH 0 _ _ Hdiv)]; [simpl; lia|].
        change (36 ^ N.of_nat 0)%N with 1%N.
        assert (1 * 36 <= n)%N by lia. apply N.div_le_lower_bound; lia.
      * etrans; [|apply (IH k _ _ Hdiv)]; [simpl; lia|].
        rewrite Nat2N.inj_succ, N.pow_succ_r' in Hn.
        apply N.div_le_lower_bound; lia.
Qed.

Lemma digitOf_digitChar (d : N) : (d < 36)%N -> digitOf (Js.digitChar d) = d.
Proof.
  intros H. unfold digitOf, Js.digitChar.
  destruct (N.ltb_spec d 10); rewrite charCode_ascii_of_N by lia.
  - destruct (N.leb_spec (48 + d) 57); lia.
  - destruct (N.leb_spec (87 + d) 57); lia.
Qed.

Lemma readRadix_append (radix : N) (s1 s2 : string) (acc : N) :
  readRadix radix (s1 +:+ s2) acc = readRadix radix s2 (readRadix radix s1 acc).
Proof.
  revert acc. induction s1 as [|c s1 IH]; intros acc; [done|].
  rewrite append_cons. cbn [readRadix]. apply IH.
Qed.

(** The digits written in front of [acc] read back as [n]: the fuel is
    enough. *)
Lemma toStringRadix_go_digits (fuel : nat) (radix n : N) (acc : string) :
  (2 <= radix <= 36)%N ->
  (n < 2 ^ N.of_nat fuel)%N ->
  exists ds,
    Js.toStringRadix_go fuel radix n acc = ds +:+ acc /\
    forall a, readRadix radix ds a = (a * radix ^ N.of_nat (String.length ds) + n)%N.
Proof.
  intros Hr. revert n acc. induction fuel as [|fuel IH]; intros n acc Hn.
  - change (2 ^ N.of_nat 0)%N with 1%N in Hn. exists "". split; [done|].
    intros a. cbn [readRadix String.length]. change (N.of_nat 0) with 0%N.
    rewrite N.pow_0_r. lia.
  - cbn [Js.toStringRadix_go]. destruct (N.ltb_spec n radix) as [Hlt|Hge].
    + exists (String (Js.digitChar (n mod radix)) ""). split; [done|].
      intros a. cbn [readRadix String.length].
      rewrite N.mod_small, digitOf_digitChar by lia.
      change (N.of_nat 1) with 1%N. rewrite N.pow_1_r. lia.
    + destruct (IH (n / radix)%N (String (Js.digitChar (n mod radix)) acc))
        as (ds & Hds & Hread).
      { apply N.Div0.div_lt_upper_bound.
        rewrite Nat2N.inj_succ, N.pow_succ_r' in Hn. nia. }
      exists (ds +:+ String (Js.digitChar (n mod radix)) ""). split.
      { by rewrite Hds, append_assoc. }
      intros a. rewrite readRadix_append, Hread. cbn [readRadix].
      rewrite digitOf_digitChar by (pose proof (N.mod_lt n radix); lia).
      rewrite length_append. cbn [String.length].
      rewrite Nat.add_1_r, Nat2N.inj_succ, N.pow_succ_r'.
      pose proof (N.div_mod n radix). lia.
Qed.

Lemma toStringRadix_read (radix n : N) :
  (2 <= radix <= 36)%N -> readRadix radix (Js.toStringRadix radix n) 0 = n.
Proof.
  intros Hr. unfold Js.toStringRadix.
  destruct (toStringRadix_go_digits (S (N.to_nat (N.log2 n))) radix n "" Hr)
    as (ds & Hds & Hread).
  - destruct n as [|q]; [done|].
    rewrite Nat2N.inj_succ, N2Nat.id. apply N.log2_spec. lia.
  - rewrite Hds, append_nil_r, Hread. lia.
Qed.

Lemma toStringRadix_go_length_acc (fuel : nat) (radix n : N) (acc : string) :
  String.length acc <= String.length (Js.toStringRadix_go fuel radix n acc).
Proof.
  revert n acc. induction fuel as [|fuel IH]; intros n acc; [done|].
  cbn [Js.toStringRadix_go]. destruct (n <? radix)%N; [simpl; lia|].
  etrans; [|apply IH]. simpl. lia.
Qed.

Lemma toStringRadix_nonempty (radix n : N) :
  1 <= String.length (Js.toStringRadix radix n).
Proof.
  unfold Js.toStringRadix. cbn [Js.toStringRadix_go].
  destruct (n <? radix)%N; [simpl; lia|].
  etrans; [|apply toStringRadix_go_length_acc]. simpl. lia.
Qed.

Lemma log2_fuel (n : N) : (n < 2 ^ N.of_nat (S (N.to_nat (N.log2 n))))%N.
Proof.
  rewrite Nat2N.inj_succ, N2Nat.id.
  destruct n as [|q]; [done|]. apply N.log2_spec. lia.
Qed.

(** The number of digits of [n.toString(36)]. *)
Lemma toString36_length_le (k : nat) (n : N) :
  (n < 36 ^ N.of_nat (S k))%N -> String.length (Js.toStringRadix 36 n) <= S k.
Proof.
  intros H. unfold Js.toStringRadix.
  etrans; [by apply toStringRadix_go_length_le|]. simpl. lia.
Qed.

Lemma toString36_length_ge (k : nat) (n : N) :
  (36 ^ N.of_nat k <= n)%N -> S k <= String.length (Js.toStringRadix 36 n).
Proof.
  intros H. unfold Js.toStringRadix.
  etrans; [|apply toStringRadix_go_length_ge; [apply log2_fuel|done]]. simpl. lia.
Qed.

Lemma slice0_length (k : nat) (s : string) :
  String.length (Js.slice0 k s) = Nat.min k (String.length s).
Proof.
  unfold Js.slice0. revert s. induction k as [|k IH]; intros s.
  - by destruct s.
  - destruct s as [|c s]; [done|]. simpl. by rewrite IH.
Qed.

Lemma slice0_base36 (k : nat) (s : string) : allBase36 s -> allBase36 (Js.slice0 k s).
Proof.
  unfold Js.slice0, allBase36. revert s. induction k as [|k IH]; intros s Hs.
  - destruct s; constructor.
  - destruct s as [|c s]; [constructor|]. simpl in *.
    apply Forall_cons in Hs as [Hc Hs]. constructor; [done|]. by apply IH.
Qed.

(** ** The hasher *)

Lemma hashStep_bound (hash : N) (c : ascii) : (hashStep hash c < 2 ^ 64)%N.
Proof.
  unfold hashStep. change mask64 with (N.ones 64).
  rewrite N.land_ones. by apply N.mod_lt.
Qed.

Lemma hashValue_bound (seed : string) : (hashValue seed < 2 ^ 64)%N.
Proof.
  unfold hashValue.
  assert (H : (offsetBasis < 2 ^ 64)%N) by done.
  revert H. generalize offsetBasis.
  induction (list_ascii_of_string seed) as [|c l IH]; intros h Hh; [done|].
  simpl. apply IH, hashStep_bound.
Qed.

(** ** Objects *)

Lemma obj_lookup_app o1 o2 k :
  obj_lookup (o1 ++ o2) k =
    match obj_lookup o1 k with Some v => Some v | None => obj_lookup o2 k end.
Proof.
  induction o1 as [|[k0 v0] o1 IH]; simpl; [done|]. by destruct (String.eqb k0 k).
Qed.

Lemma obj_lookup_replace o k v k' :
  obj_lookup o k <> None ->
  obj_lookup (obj_replace o k v) k' = if String.eqb k k' then Some v else obj_lookup o k'.
Proof.
  induction o as [|[k0 v0] o IH]; simpl; [done|].
  destruct (String.eqb_spec k0 k) as [->|Hk]; simpl.
  - intros _. by destruct (String.eqb k k').
  - intros H. rewrite (IH H).
    destruct (String.eqb_spec k0 k'), (String.eqb_spec k k'); congruence.
Qed.

Lemma obj_lookup_insert_index i o k v k' :
  obj_lookup o k = None ->
  obj_lookup (obj_insert_index i k v o) k' =
    if String.eqb k k' then Some v else obj_lookup o k'.
Proof.
  induction o as [|[k0 v0] o IH]; simpl; [done|].
  destruct (String.eqb_spec k0 k) as [->|Hk]; [done|]. intros H.
  destruct (Js.arrayIndex k0) as [j|]; [destruct (j <? i)%N|]; simpl; try done.
  rewrite (IH H).
  destruct (String.eqb_spec k0 k'), (String.eqb_spec k k'); congruence.
Qed.

Lemma obj_lookup_set o k v k' :
  obj_lookup (obj_set o k v) k' = if String.eqb k k' then Some v else obj_lookup o k'.
Proof.
  unfold obj_set, obj_has. destruct (obj_lookup o k) as [v0|] eqn:E.
  - apply obj_lookup_replace. by rewrite E.
  - destruct (Js.arrayIndex k) as [i|]; [by apply obj_lookup_insert_index|].
    rewrite obj_lookup_app. simpl. destruct (String.eqb_spec k k') as [<-|Hk].
    + by rewrite E.
    + by destruct (obj_lookup o k').
Qed.

Lemma obj_lookup_absent o k : k ∉ ownKeys o -> obj_lookup o k = None.
Proof.
  induction o as [|[k0 v0] o IH]; simpl; [done|].
  intros H. apply not_elem_of_cons in H as [H1 H2].
  destruct (String.eqb_spec k0 k); [congruence|auto].
Qed.

Lemma obj_lookup_present o k : obj_lookup o k = None -> k ∉ ownKeys o.
Proof.
  induction o as [|[k0 v0] o IH]; simpl; [intros _; apply not_elem_of_nil|].
  destruct (String.eqb_spec k0 k); [done|]. intros H.
  apply not_elem_of_cons. split; [congruence|auto].
Qed.

Lemma ownKeys_replace o k v : ownKeys (obj_replace o k v) = ownKeys o.
Proof.
  induction o as [|[k0 v0] o IH]; simpl; [done|].
  destruct (String.eqb k0 k); simpl; [done|]. by rewrite IH.
Qed.

Lemma ownKeys_insert_index i o k v :
  ownKeys (obj_insert_index i k v o) ≡ₚ k :: ownKeys o.
Proof.
  induction o as [|[k0 v0] o IH]; simpl; [done|].
  destruct (Js.arrayIndex k0) as [j|]; [destruct (j <? i)%N|]; simpl; try done.
  rewrite IH. apply Permutation_swap.
Qed.

(** Objects keep their keys distinct. *)
Lemma NoDup_obj_set o k v : NoDup (ownKeys o) -> NoDup (ownKeys (obj_set o k v)).
Proof.
  intros Hnd. unfold obj_set, obj_has.
  destruct (obj_lookup o k) as [v0|] eqn:E; [by rewrite ownKeys_replace|].
  apply obj_lookup_present in E.
  assert (Hk : NoDup (k :: ownKeys o)) by by apply NoDup_cons.
  destruct (Js.arrayIndex k) as [i|].
  - by rewrite ownKeys_insert_index.
  - unfold ownKeys. rewrite map_app. simpl.
    by rewrite Permutation_app_comm.
Qed.

Lemma NoDup_obj_assign target source :
  NoDup (ownKeys target) -> NoDup (ownKeys (obj_assign target source)).
Proof.
  unfold obj_assign. revert target.
  induction source as [|[k0 v0] source IH]; intros target Hnd; simpl; [done|].
  by apply IH, NoDup_obj_set.
Qed.

Lemma NoDup_spread2 a b : NoDup (ownKeys (spread2 a b)).
Proof. unfold spread2. apply NoDup_obj_assign, NoDup_obj_assign, NoDup_nil_2. Qed.

(** Copying [source] onto [target]: the keys of [source] win. *)
Lemma obj_lookup_assign target source k :
  NoDup (ownKeys source) ->
  obj_lookup (obj_assign target source) k =
    match obj_lookup source k with Some v => Some v | None => obj_lookup target k end.
Proof.
  unfold obj_assign. revert target.
  induction source as [|[k0 v0] source IH]; intros target Hnd; simpl; [done|].
  apply NoDup_cons in Hnd as [Hnin Hnd]. rewrite (IH _ Hnd).
  rewrite obj_lookup_set. destruct (String.eqb_spec k0 k) as [->|Hk]; [|done].
  by rewrite obj_lookup_absent.
Qed.

Lemma obj_lookup_spread2 a b k :
  NoDup (ownKeys a) -> NoDup (ownKeys b) ->
  obj_lookup (spread2 a b) k =
    match obj_lookup b k with Some v => Some v | None => obj_lookup a k end.
Proof.
  intros Ha Hb. unfold spread2. rewrite !obj_lookup_assign by done.
  simpl. by destruct (obj_lookup a k).
Qed.

(** ** The definitions in the shape of the code *)

(** [serializeNested]: the declarations, then the three pseudo states,
    then the five breakpoints, each compiled from [style[key]]. *)
Lemma serializeNested_eq (style : value) (ctx : SerializeContext) :
  serializeNested style ctx =
    ruleText ctx (declarations style)
    +:+ String.concat ""
          (map (fun pseudo => compileAt style pseudo (pseudoContext ctx pseudo)) PSEUDOS)
    +:+ String.concat ""
          (map (fun m => compileAt style (fst m) (mediaContext ctx (snd m))) MEDIA_MAP).
Proof.
  destruct style as [| | | | | |props]; try reflexivity.
  assert (H : forall key ctx',
    (fix at_key (o : obj) (key : string) (ctx' : SerializeContext) {struct o} : string :=
       match o with
       | [] => ""
       | (k', v) :: o' =>
           if String.eqb k' key
           then (if truthy v then serializeNested v ctx' else "")
           else at_key o' key ctx'
       end) props key ctx' = compileAt (VObject props) key ctx').
  { intros key ctx'. unfold compileAt, reserved, obj_get.
    induction props as [|[k0 v0] props IH]; [done|].
    cbn [obj_lookup]. by destruct (String.eqb k0 key). }
  cbn [serializeNested PSEUDOS MEDIA_MAP map fst snd]. by rewrite !H.
Qed.

Lemma rendered_text (o : obj) (k : string) :
  default "undefined"
    (snd <$> find (fun p : string * string => String.eqb (fst p) k)
               (map (fun p : string * value => (fst p, interp (stableStringify (snd p)))) o)) =
  interp (stableStringify (obj_get o k)).
Proof.
  unfold obj_get. induction o as [|[k0 v0] o IH]; [done|].
  cbn [map find fst snd obj_lookup]. by destruct (String.eqb k0 k).
Qed.

(** [stableStringify] on an object: the members ["k":stableStringify(value[k])]
    for the sorted keys [k]. *)
Lemma stableStringify_object (o : obj) :
  stableStringify (VObject o) =
    Some ("{" +:+ Js.join ","
                    (map (fun k => member k (interp (stableStringify (obj_get o k))))
                         (sortKeys (ownKeys o)))
          +:+ "}").
Proof.
  cbn [stableStringify]. do 4 f_equal. apply map_ext. intros k. f_equal.
  apply rendered_text.
Qed.

(** ** Order of the keys *)

Lemma sortKeys_Permutation (l1 l2 : list string) :
  l1 ≡ₚ l2 -> sortKeys l1 = sortKeys l2.
Proof.
  intros Hp. unfold sortKeys.
  apply (Sorted_unique String.le); try apply Sorted_merge_sort; try apply _.
  by rewrite !merge_sort_Permutation.
Qed.

(** Looking a key up does not depend on the order of the entries. *)
Lemma find_key_Permutation {A} (l1 l2 : list (string * A)) (k : string) :
  NoDup (map fst l1) -> l1 ≡ₚ l2 ->
  find (fun p => String.eqb (fst p) k) l1 = find (fun p => String.eqb (fst p) k) l2.
Proof.
  intros Hnd Hp. induction Hp as [|x l l' Hp IH|x y l|l l' l'' Hp1 IH1 Hp2 IH2].
  - done.
  - simpl in *. apply NoDup_cons in Hnd as [_ Hnd]. by rewrite IH.
  - simpl in *. apply NoDup_cons in Hnd as [Hx _].
    destruct (String.eqb_spec (fst y) k) as [Ey|], (String.eqb_spec (fst x) k) as [Ex|];
      try done.
    destruct Hx. rewrite Ey, <- Ex. apply list_elem_of_here.
  - rewrite IH1 by done. apply IH2. by rewrite <- Hp1.
Qed.

(** C4, the serializer. Reordering the keys of objects, at any depth, does
    not change the canonical text. *)
Lemma stableStringify_reordered (v1 v2 : value) :
  reordered v1 v2 -> stableStringify v1 = stableStringify v2.
Proof.
  intros H. induction H as [| | | | |l1 l2 HF|o1 o o2 Hnd Hp HF] using reordered_induction;
    try done.
  - cbn [stableStringify]. do 4 f_equal.
    induction HF as [|x y l l' Hxy _ IH]; [done|]. cbn [map]. by rewrite Hxy, IH.
  - assert (Hr : map (fun p : string * value => (fst p, interp (stableStringify (snd p)))) o =
                 map (fun p : string * value => (fst p, interp (stableStringify (snd p)))) o2).
    { clear Hp. induction HF as [|x y l l' [Hk Hv] _ IH]; [done|].
      cbn [map]. by rewrite Hk, Hv, IH. }
    assert (Hkeys : ownKeys o = ownKeys o2).
    { unfold ownKeys. clear Hp Hr. induction HF as [|x y l l' [Hk Hv] _ IH]; [done|].
      cbn [map]. by rewrite Hk, IH. }
    cbn [stableStringify]. rewrite <- Hr, <- Hkeys.
    rewrite (sortKeys_Permutation (ownKeys o1) (ownKeys o))
      by (unfold ownKeys; by rewrite Hp).
    do 4 f_equal. apply map_ext. intros k. do 3 f_equal.
    apply find_key_Permutation.
    + by rewrite map_map.
    + by rewrite Hp.
Qed.

(** ** Declarations *)

Lemma ruleText_contains (ctx : SerializeContext) (decls : list string) (d : string) :
  In d decls -> contains d (ruleText ctx decls).
Proof.
  intros Hin. unfold ruleText. destruct decls as [|d0 decls]; [done|].
  assert (Hrule : contains d (selector ctx +:+ "{" +:+ Js.join ";" (d0 :: decls) +:+ "}")).
  { apply contains_append_r, contains_append_r, contains_append_l. by apply contains_join. }
  destruct (given (media ctx)); [|done].
  by apply contains_append_r, contains_append_r, contains_append_r, contains_append_l.
Qed.

Lemma declarations_scalar (style : obj) (key : string) (v : value) :
  In (key, v) style -> scalar v = true -> Js.startsWith "_" key = false ->
  In (toKebabCase key +:+ ":" +:+ toStr v) (declarations (VObject style)).
Proof.
  intros Hin Hv Hk. unfold declarations. apply in_flat_map.
  exists (key, v). split; [done|]. cbn [fst snd forIn]. rewrite Hk.
  destruct v; try done; by left.
Qed.

Lemma declarations_skip_underscore (style : obj) :
  declarations (VObject style) =
  declarations (VObject (List.filter (fun p => negb (Js.startsWith "_" (fst p))) style)).
Proof.
  unfold declarations. cbn [forIn].
  induction style as [|[k v] style IH]; [done|].
  cbn [flat_map List.filter fst snd]. destruct (Js.startsWith "_" k) eqn:E; cbn [negb].
  - by rewrite !orb_true_r.
  - cbn [flat_map fst snd]. by rewrite E, IH.
Qed.

(** C6, as the code has it. A key that does not start with an underscore
    and holds a scalar is a literal declaration: the compiled text contains
    [hyphenated-key:value]. Every key that starts with an underscore, the
    eight reserved keys and any other such as [_foo], is left out of the
    declarations. *)
Theorem scalar_declaration_emitted
  (style : obj) (key : string) (v : value) (ctx : SerializeContext) :
  In (key, v) style ->
  scalar v = true ->
  Js.startsWith "_" key = false ->
  contains (toKebabCase key +:+ ":" +:+ toStr v) (serializeNested (VObject style) ctx) /\
  declarations (VObject style) =
    declarations (VObject (List.filter (fun p => negb (Js.startsWith "_" (fst p))) style)) /\
  Forall (fun reservedKey => Js.startsWith "_" reservedKey = true) reservedKeys.
Proof.
  intros Hin Hv Hk. split; [|split].
  - rewrite serializeNested_eq. apply contains_append_l, ruleText_contains.
    by apply declarations_scalar.
  - apply declarations_skip_underscore.
  - by repeat constructor.
Qed.

(** ** The rule map *)

Module RuleMapFacts.
Import RuleMap.

Lemma has_app m1 m2 k : has (m1 ++ m2) k = has m1 k || has m2 k.
Proof. unfold has. apply existsb_app. Qed.

Lemma has_delete m k : has (delete m k) k = false.
Proof.
  unfold has, delete. induction m as [|e m IH]; simpl; [done|].
  destruct (is_key k e) eqn:E; simpl; [done|]. by rewrite E.
Qed.

Lemma delete_absent m k : has m k = false -> delete m k = m.
Proof.
  unfold has, delete. induction m as [|e m IH]; simpl; [done|].
  intros [E1 E2]%orb_false_elim. rewrite E1. simpl. by rewrite IH.
Qed.

Lemma set_absent m k text : has m k = false -> set m k text = m ++ [(k, text)].
Proof. unfold set. by intros ->. Qed.

Lemma get_app m1 m2 k :
  get (m1 ++ m2) k = match get m1 k with Some t => Some t | None => get m2 k end.
Proof.
  unfold get. induction m1 as [|e m1 IH]; simpl; [done|].
  by destruct (is_key k e).
Qed.

Lemma get_absent m k : has m k = false -> get m k = None.
Proof.
  unfold has, get. induction m as [|e m IH]; simpl; [done|].
  intros [E1 E2]%orb_false_elim. rewrite E1. auto.
Qed.

Lemma get_delete_ne m k k' : k' <> k -> get (delete m k) k' = get m k'.
Proof.
  intros Hne. unfold get, delete, is_key.
  induction m as [|[k0 t] m IH]; simpl; [done|].
  destruct (String.eqb_spec k0 k), (String.eqb_spec k0 k'); simpl;
    try congruence.
  all: destruct (String.eqb_spec k0 k'); simpl; congruence.
Qed.

Lemma get_singleton k text k' :
  get [(k, text)] k' = if String.eqb k k' then Some text else None.
Proof. unfold get, is_key; simpl. by destruct (String.eqb k k'). Qed.

Lemma entries_app m1 m2 k : entries (m1 ++ m2) k = entries m1 k ++ entries m2 k.
Proof. apply List.filter_app. Qed.

Lemma entries_absent m k : has m k = false -> entries m k = [].
Proof.
  unfold has, entries. induction m as [|e m IH]; simpl; [done|].
  intros [E1 E2]%orb_false_elim. rewrite E1. auto.
Qed.

Lemma entries_single k text : entries [(k, text)] k = [(k, text)].
Proof. unfold entries, is_key; simpl. by rewrite String.eqb_refl. Qed.

Lemma has_keys m k : has m k = true <-> k ∈ keys m.
Proof.
  rewrite list_elem_of_In.
  unfold has, keys. rewrite existsb_exists, in_map_iff. unfold is_key.
  split; intros [e [H1 H2]]; exists e.
  - split; [|done]. by apply String.eqb_eq.
  - split; [done|]. by apply String.eqb_eq.
Qed.

Lemma entries_unique m k :
  NoDup (keys m) -> has m k = true -> length (entries m k) = 1.
Proof.
  induction m as [|[k0 t] m IH]; [done|].
  intros Hnd. apply NoDup_cons in Hnd as [Hnin Hnd].
  unfold has, entries, is_key in *. simpl.
  destruct (String.eqb_spec k0 k) as [->|Hk]; simpl.
  - intros _. f_equal. apply length_zero_iff_nil, entries_absent.
    destruct (has m k) eqn:E; [|done]. apply has_keys in E. by destruct Hnin.
  - auto.
Qed.

Lemma keys_app m1 m2 : keys (m1 ++ m2) = keys m1 ++ keys m2.
Proof. apply map_app. Qed.

Lemma NoDup_keys_delete m k : NoDup (keys m) -> NoDup (keys (delete m k)).
Proof.
  unfold keys, delete. induction m as [|e m IH]; simpl; [done|].
  intros [Hnin Hnd]%NoDup_cons. destruct (negb (is_key k e)); simpl; [|auto].
  apply NoDup_cons. split; [|auto].
  intros Hin. apply Hnin. apply list_elem_of_fmap in Hin as (e' & -> & Hin).
  apply list_elem_of_fmap. exists e'. split; [done|].
  apply list_elem_of_In. apply list_elem_of_In in Hin.
  by apply List.filter_In in Hin as [Hin _].
Qed.

Lemma NoDup_keys_add m k text :
  NoDup (keys m) -> has m k = false -> NoDup (keys (m ++ [(k, text)])).
Proof.
  intros Hnd Hk. rewrite keys_app. simpl. apply NoDup_app. split; [done|]. split.
  - intros x Hx Hin. apply list_elem_of_singleton in Hin as ->.
    apply has_keys in Hx. congruence.
  - apply NoDup_singleton.
Qed.

Lemma delete_added m k text : delete (delete m k ++ [(k, text)]) k = delete m k.
Proof.
  unfold delete at 1. rewrite List.filter_app.
  assert (E : List.filter (fun entry => negb (is_key k entry)) [(k, text)] = []).
  { unfold is_key. cbn [List.filter fst]. by rewrite String.eqb_refl. }
  rewrite E, app_nil_r. apply delete_absent, has_delete.
Qed.

End RuleMapFacts.

(** ** Running the operations *)

Section EngineFacts.

Variable process : string -> string.

Lemma postcssTransform_this text w :
  this (after (postcssTransform process text) w) = this w.
Proof. unfold after, postcssTransform. by destruct (given _). Qed.

Lemma postcssTransform_result text w :
  cache_ok process w -> result (postcssTransform process text) w = process text.
Proof.
  intros Hok. unfold result, postcssTransform.
  destruct (postcssCache w !! text) as [cached|] eqn:E; simpl; [|done].
  destruct (negb _); simpl; [|done]. by apply Hok.
Qed.

Lemma postcssTransform_cache_ok text w :
  cache_ok process w -> cache_ok process (after (postcssTransform process text) w).
Proof.
  intros Hok. unfold after, postcssTransform.
  destruct (given _); simpl; [done|].
  intros t c. simpl. rewrite lookup_insert.
  case_decide as E; [|by apply Hok]. intros [= <-]. by subst.
Qed.

Lemma cache_ok_fresh p : cache_ok process (fresh p).
Proof. intros t c. simpl. by rewrite lookup_empty. Qed.

(** The guarded insertion shared by [css], [keyframes] and [fontFace]. *)
Lemma add_once_run key raw w :
  let t := postcssTransform process raw w in
  (if negb (RuleMap.has (rules (this w)) key)
   then cssText <- postcssTransform process raw ;;
        setRules (RuleMap.set (rules (this w)) key cssText)
   else ret tt) w =
  (tt, if RuleMap.has (rules (this w)) key then w
       else {| postcssCache := postcssCache (snd t);
               this := {| prefix := prefix (this w);
                          rules := rules (this w) ++ [(key, fst t)];
                          globalStore := globalStore (this w) |} |}).
Proof.
  intros t.
  destruct (RuleMap.has (rules (this w)) key) eqn:E; cbn [negb]; [done|].
  unfold bind, setRules. cbn [fst snd]. fold t.
  rewrite RuleMapFacts.set_absent by done.
  pose proof (postcssTransform_this raw w) as Ht. unfold after in Ht. fold t in Ht.
  by rewrite Ht.
Qed.

(** What one call of [css] returns and leaves behind. *)
Lemma css_run style w :
  let name := className (prefix (this w)) (VObject style) in
  let key := "class:" +:+ name in
  let raw := serializeNested (VObject style)
               {| selector := "." +:+ name; media := None |} in
  let t := postcssTransform process raw w in
  css process style w =
    (name,
     if RuleMap.has (rules (this w)) key then w
     else {| postcssCache := postcssCache (snd t);
             this := {| prefix := prefix (this w);
                        rules := rules (this w) ++ [(key, fst t)];
                        globalStore := globalStore (this w) |} |}).
Proof.
  intros name key raw t. unfold css, bind at 1 2, getThis, ret. cbn [fst snd].
  change (prefix (this w) +:+ "_" +:+ createHashName (interp (stableStringify (VObject style))))
    with name.
  fold key. fold raw. by rewrite add_once_run.
Qed.

(** What one call of [keyframes] returns and leaves behind. *)
Lemma keyframes_run frames w :
  let name := className (prefix (this w)) (VObject frames) in
  let key := "@keyframes:" +:+ name in
  let raw := "@keyframes " +:+ name +:+ "{ " +:+ keyframesBody frames +:+ " }" in
  let t := postcssTransform process raw w in
  keyframes process frames w =
    (name,
     if RuleMap.has (rules (this w)) key then w
     else {| postcssCache := postcssCache (snd t);
             this := {| prefix := prefix (this w);
                        rules := rules (this w) ++ [(key, fst t)];
                        globalStore := globalStore (this w) |} |}).
Proof.
  intros name key raw t. unfold keyframes, bind at 1 2, getThis, ret. cbn [fst snd].
  change (prefix (this w) +:+ "_" +:+ createHashName (interp (stableStringify (VObject frames))))
    with name.
  fold key. fold raw. by rewrite add_once_run.
Qed.

(** What one call of [fontFace] leaves behind. *)
Lemma fontFace_run font w :
  let hash := createHashName (interp (stableStringify (VObject font))) in
  let key := "@font-face:" +:+ hash in
  let raw := "@font-face{ " +:+ Js.join ";" (allDeclarations (VObject font)) +:+ " }" in
  let t := postcssTransform process raw w in
  fontFace process font w =
    (tt,
     if RuleMap.has (rules (this w)) key then w
     else {| postcssCache := postcssCache (snd t);
             this := {| prefix := prefix (this w);
                        rules := rules (this w) ++ [(key, fst t)];
                        globalStore := globalStore (this w) |} |}).
Proof.
  intros hash key raw t. unfold fontFace, bind at 1, getThis. cbn [fst snd].
  fold hash. fold key. fold raw. by rewrite add_once_run.
Qed.

(** What one call of [global] leaves behind. *)
Lemma global_run sel style w :
  let key := "global:" +:+ sel in
  let merged := spread2 (default [] (globalStore (this w) !! key)) style in
  let raw := serializeNested (VObject merged) {| selector := sel; media := None |} in
  let t := postcssTransform process raw
             {| postcssCache := postcssCache w;
                this := {| prefix := prefix (this w); rules := rules (this w);
                           globalStore := <[key := merged]> (globalStore (this w)) |} |} in
  after (global process sel style) w =
    {| postcssCache := postcssCache (snd t);
       this := {| prefix := prefix (this w);
                  rules := RuleMap.delete (rules (this w)) key ++ [(key, fst t)];
                  globalStore := <[key := merged]> (globalStore (this w)) |} |}.
Proof.
  intros key merged raw t.
  unfold after, global, bind, getThis, ret, setRules, setGlobalStore. cbn [fst snd].
  fold key. fold merged. fold raw. cbn [postcssCache this prefix rules globalStore]. fold t.
  pose proof (postcssTransform_this raw
    {| postcssCache := postcssCache w;
       this := {| prefix := prefix (this w); rules := rules (this w);
                  globalStore := <[key := merged]> (globalStore (this w)) |} |}) as Ht.
  unfold after in Ht. fold t in Ht. rewrite Ht. cbn [postcssCache this prefix rules globalStore].
  f_equal. f_equal.
  destruct (RuleMap.has (rules (this w)) key) eqn:E.
  - apply RuleMapFacts.set_absent, RuleMapFacts.has_delete.
  - rewrite RuleMapFacts.delete_absent by done. by apply RuleMapFacts.set_absent.
Qed.

Lemma cache_ok_same_cache w w' :
  postcssCache w' = postcssCache w -> cache_ok process w -> cache_ok process w'.
Proof. unfold cache_ok. by intros ->. Qed.

(** The rules after [global]: the entry of the selector is taken out and
    the recompiled text goes last. *)
Lemma global_rules sel style w :
  cache_ok process w ->
  let key := "global:" +:+ sel in
  let merged := spread2 (default [] (globalStore (this w) !! key)) style in
  let raw := serializeNested (VObject merged) {| selector := sel; media := None |} in
  rules (this (after (global process sel style) w)) =
    RuleMap.delete (rules (this w)) key ++ [(key, process raw)].
Proof.
  intros Hok key merged raw. rewrite global_run. cbn [this rules].
  fold key. fold merged. fold raw.
  change (fst (postcssTransform process raw ?s)) with (result (postcssTransform process raw) s).
  rewrite postcssTransform_result; [done|].
  by apply (cache_ok_same_cache w).
Qed.

Lemma global_globalStore sel style w :
  let key := "global:" +:+ sel in
  globalStore (this (after (global process sel style) w)) =
    <[key := spread2 (default [] (globalStore (this w) !! key)) style]> (globalStore (this w)).
Proof. intros key. by rewrite global_run. Qed.

Lemma global_prefix sel style w :
  prefix (this (after (global process sel style) w)) = prefix (this w).
Proof. by rewrite global_run. Qed.

Lemma global_cache_ok sel style w :
  cache_ok process w -> cache_ok process (after (global process sel style) w).
Proof.
  intros Hok. rewrite global_run.
  match goal with
  | |- context [postcssTransform process ?raw ?s] =>
      pose proof (postcssTransform_cache_ok raw s) as H
  end.
  unfold after in H. eapply cache_ok_same_cache; [|apply H; by apply (cache_ok_same_cache w)].
  done.
Qed.

(** The export of a store whose last rule is [text]. *)
Lemma exportText_fold (l : list string) (init : string) :
  fold_left (fun cssText rule => cssText +:+ rule +:+ Js.newline) l init =
  init +:+ fold_left (fun cssText rule => cssText +:+ rule +:+ Js.newline) l "".
Proof.
  revert init. induction l as [|r l IH]; intros init; simpl.
  - by rewrite append_nil_r.
  - rewrite IH. rewrite (IH ("" +:+ r +:+ Js.newline)).
    by rewrite !append_assoc.
Qed.

Lemma exportText_last (m : RuleMap.t) (key text : string) :
  exportText (m ++ [(key, text)]) =
    Some (joined (exportText m) +:+ text +:+ Js.newline).
Proof.
  unfold exportText, RuleMap.size, RuleMap.values.
  rewrite length_app, map_app, fold_left_app. simpl.
  by destruct m as [|e m].
Qed.

(** ** The invariant of the runtime *)

Lemma store_ok_fresh p : store_ok process (fresh p).
Proof. split; [apply cache_ok_fresh|apply NoDup_nil_2]. Qed.

Lemma store_ok_add_once key raw w :
  store_ok process w ->
  let t := postcssTransform process raw w in
  store_ok process
    (if RuleMap.has (rules (this w)) key then w
     else {| postcssCache := postcssCache (snd t);
             this := {| prefix := prefix (this w);
                        rules := rules (this w) ++ [(key, fst t)];
                        globalStore := globalStore (this w) |} |}).
Proof.
  intros [Hok Hnd] t. destruct (RuleMap.has (rules (this w)) key) eqn:E; [done|].
  split.
  - apply (cache_ok_same_cache (after (postcssTransform process raw) w)); [done|].
    by apply postcssTransform_cache_ok.
  - cbn [this rules]. by apply RuleMapFacts.NoDup_keys_add.
Qed.

Lemma store_ok_css style w :
  store_ok process w -> store_ok process (after (css process style) w).
Proof. intros H. unfold after. rewrite css_run. by apply store_ok_add_once. Qed.

Lemma store_ok_keyframes frames w :
  store_ok process w -> store_ok process (after (keyframes process frames) w).
Proof. intros H. unfold after. rewrite keyframes_run. by apply store_ok_add_once. Qed.

Lemma store_ok_fontFace font w :
  store_ok process w -> store_ok process (after (fontFace process font) w).
Proof. intros H. unfold after. rewrite fontFace_run. by apply store_ok_add_once. Qed.

Lemma store_ok_global sel style w :
  store_ok process w -> store_ok process (after (global process sel style) w).
Proof.
  intros [Hok Hnd]. split; [by apply global_cache_ok|].
  rewrite global_rules by done. apply RuleMapFacts.NoDup_keys_add.
  - by apply RuleMapFacts.NoDup_keys_delete.
  - apply RuleMapFacts.has_delete.
Qed.

(** ** The class store *)

(** C3. Calling [css] twice with the same description on one facade
    returns the same class name both times; the second call leaves the
    whole runtime as the first call left it (nothing is compiled, nothing
    is transformed, nothing is stored), and the store holds exactly one
    rule under [class:<name>]. *)
Theorem css_twice_same_name_one_rule (style : obj) (w : Runtime) :
  NoDup (RuleMap.keys (rules (this w))) ->
  let first := css process style w in
  let second := css process style (snd first) in
  fst second = fst first /\
  snd second = snd first /\
  length (RuleMap.entries (rules (this (snd first))) ("class:" +:+ fst first)) = 1.
Proof.
  intros Hnd first second. subst second first. rewrite (css_run style w).
  cbn [fst snd].
  set (name := className (prefix (this w)) (VObject style)).
  set (key := "class:" +:+ name).
  destruct (RuleMap.has (rules (this w)) key) eqn:E.
  - rewrite css_run. fold name. fold key. rewrite E. cbn [fst snd].
    split; [done|]. split; [done|]. by apply RuleMapFacts.entries_unique.
  - set (w1 := {| postcssCache := _; this := _ |}).
    assert (Hp : prefix (this w1) = prefix (this w)) by done.
    assert (Hhas : RuleMap.has (rules (this w1)) key = true).
    { subst w1. cbn [this rules]. rewrite RuleMapFacts.has_app.
      unfold RuleMap.has at 2, RuleMap.is_key. simpl.
      rewrite String.eqb_refl. apply orb_true_r. }
    rewrite css_run. rewrite Hp. fold name. fold key. rewrite Hhas. cbn [fst snd].
    split; [done|]. split; [done|].
    subst w1. cbn [this rules]. rewrite RuleMapFacts.entries_app.
    rewrite RuleMapFacts.entries_absent by done.
    by rewrite RuleMapFacts.entries_single.
Qed.

(** ** Frame of the rule-defining operations *)

Lemma added_only_refl w key : added_only w w key.
Proof. repeat split. exists []. split; [by rewrite app_nil_r|by left]. Qed.

Lemma added_only_get w w' key k text :
  added_only w w' key ->
  RuleMap.get (rules (this w)) k = Some text ->
  RuleMap.get (rules (this w')) k = Some text.
Proof.
  intros (_ & _ & added & -> & _) H. rewrite RuleMapFacts.get_app. by rewrite H.
Qed.

(** C10. [css], [keyframes] and [fontFace] leave every stored rule as it
    was, key, text and place, add at most one entry, under their own key
    ([class:], [@keyframes:] or [@font-face:] followed by the identifier),
    and do not touch the accumulator; [global] leaves the rules stored
    under every other key as they were, in their order, and only writes
    the accumulator entry of its own key. *)
Theorem rule_operations_frame (w : Runtime) :
  (forall style,
     added_only w (after (css process style) w)
       ("class:" +:+ result (css process style) w)) /\
  (forall frames,
     added_only w (after (keyframes process frames) w)
       ("@keyframes:" +:+ result (keyframes process frames) w)) /\
  (forall font,
     added_only w (after (fontFace process font) w)
       ("@font-face:" +:+ createHashName (interp (stableStringify (VObject font))))) /\
  (forall sel style,
     let w' := after (global process sel style) w in
     RuleMap.delete (rules (this w')) ("global:" +:+ sel) =
       RuleMap.delete (rules (this w)) ("global:" +:+ sel) /\
     forall k, k <> "global:" +:+ sel ->
       RuleMap.get (rules (this w')) k = RuleMap.get (rules (this w)) k /\
       globalStore (this w') !! k = globalStore (this w) !! k).
Proof.
  split; [|split; [|split]].
  - intros style. unfold after, result. rewrite css_run. cbn [fst snd].
    destruct (RuleMap.has _ _); [apply added_only_refl|].
    repeat split. eexists. split; [done|]. right. by eexists.
  - intros frames. unfold after, result. rewrite keyframes_run. cbn [fst snd].
    destruct (RuleMap.has _ _); [apply added_only_refl|].
    repeat split. eexists. split; [done|]. right. by eexists.
  - intros font. unfold after. rewrite fontFace_run. cbn [fst snd].
    destruct (RuleMap.has _ _); [apply added_only_refl|].
    repeat split. eexists. split; [done|]. right. by eexists.
  - intros sel style w'. subst w'. rewrite global_run. cbn [this rules globalStore].
    set (key := "global:" +:+ sel). split.
    + apply RuleMapFacts.delete_added.
    + intros k Hk. split.
      * rewrite RuleMapFacts.get_app, RuleMapFacts.get_delete_ne by done.
        destruct (RuleMap.get (rules (this w)) k); [done|].
        rewrite RuleMapFacts.get_singleton.
        destruct (String.eqb_spec key k); [congruence|done].
      * by rewrite lookup_insert_ne.
Qed.

(** ** Global rules *)

(** C1. On a facade where the selector [sel] has not been defined, calling
    [global sel d1] and then [global sel d2] leaves exactly one rule under
    [global:<sel>]; its text is the transform of the compilation of the
    shallow merge of [d1] and [d2], in which the top-level keys of [d2]
    overwrite those of [d1] and the keys of [d1] alone persist. *)
Theorem global_twice_merges (sel : string) (d1 d2 : obj) (w : Runtime) :
  cache_ok process w ->
  globalStore (this w) !! ("global:" +:+ sel) = None ->
  NoDup (ownKeys d1) -> NoDup (ownKeys d2) ->
  let key := "global:" +:+ sel in
  let w2 := after (global process sel d1 ;; global process sel d2) w in
  let merged := spread2 (spread2 [] d1) d2 in
  RuleMap.entries (rules (this w2)) key =
    [(key, process (serializeNested (VObject merged) {| selector := sel; media := None |}))] /\
  (forall k, obj_lookup merged k =
               match obj_lookup d2 k with Some v => Some v | None => obj_lookup d1 k end).
Proof.
  intros Hok Hnone Hd1 Hd2 key w2 merged. split.
  - subst w2. unfold after, bind. cbn [fst snd].
    change (snd (global process sel d1 w)) with (after (global process sel d1) w).
    change (snd (global process sel d2 ?s)) with (after (global process sel d2) s).
    rewrite global_rules by by apply global_cache_ok.
    rewrite global_globalStore. fold key. rewrite lookup_insert_eq. cbn [default].
    fold key in Hnone. rewrite Hnone. cbn [default id]. fold merged.
    rewrite RuleMapFacts.entries_app, RuleMapFacts.entries_single.
    rewrite RuleMapFacts.entries_absent; [done|]. apply RuleMapFacts.has_delete.
  - intros k. subst merged.
    rewrite obj_lookup_spread2 by (done || apply NoDup_spread2).
    destruct (obj_lookup d2 k); [done|]. rewrite obj_lookup_spread2 by (done || apply NoDup_nil_2).
    by destruct (obj_lookup d1 k).
Qed.

(** C2, as the code has it. Redefining a global selector takes its rule
    out of the store and puts the recompiled rule last: the other rules
    keep their order and the redefined one closes the export. *)
Theorem global_redefinition_moves_last (sel : string) (style : obj) (w : Runtime) :
  let key := "global:" +:+ sel in
  let w' := after (global process sel style) w in
  exists text,
    rules (this w') = RuleMap.delete (rules (this w)) key ++ [(key, text)] /\
    result toTextCss w' =
      Some (joined (exportText (RuleMap.delete (rules (this w)) key)) +:+ text +:+ Js.newline).
Proof.
  intros key w'. subst w'. rewrite global_run. cbn [this rules]. fold key.
  eexists. split; [done|].
  unfold result, toTextCss, bind, getThis, ret. cbn [fst snd this rules].
  apply exportText_last.
Qed.

(** ** Relation builder *)

(** C8. [when("a").hover().adjacent("b", { color: "red" })] on a new facade
    registers one global rule, for the selector [.a:hover+.b]; and every
    terminal action is the global-rule operation on the selector made of
    [.<source>], the [:<state>] suffix when a state was chosen, the
    combinator ([+], [>], [~] or one space) and [.<target>]. *)
Theorem relation_builder_selector (b : RelationBuilder) (target : string) (style : obj) :
  let suffix := match pseudo b with
                | Some hover_state => ":hover"
                | Some focus_state => ":focus"
                | Some active_state => ":active"
                | None => ""
                end in
  (forall p,
     rules (this (after (adjacent process (hover (when "a")) "b" [("color", str "red")])
                        (fresh p))) =
       [("global:.a:hover+.b", process ".a:hover+.b{color:red}")]) /\
  adjacent process b target style =
    global process ("." +:+ source b +:+ suffix +:+ "+" +:+ "." +:+ target) style /\
  child process b target style =
    global process ("." +:+ source b +:+ suffix +:+ ">" +:+ "." +:+ target) style /\
  sibling process b target style =
    global process ("." +:+ source b +:+ suffix +:+ "~" +:+ "." +:+ target) style /\
  descendant process b target style =
    global process ("." +:+ source b +:+ suffix +:+ " " +:+ "." +:+ target) style /\
  (source (hover b) = source b /\ pseudo (hover b) = Some hover_state) /\
  (source (focus b) = source b /\ pseudo (focus b) = Some focus_state) /\
  (source (active b) = source b /\ pseudo (active b) = Some active_state).
Proof.
  intros suffix. split.
  - intros p. unfold adjacent, emit.
    rewrite global_rules by apply cache_ok_fresh. reflexivity.
  - subst suffix. unfold adjacent, child, sibling, descendant, emit, relationSelector.
    by destruct (pseudo b) as [[]|].
Qed.

(** ** Names of classes *)

Lemma css_result style w :
  result (css process style) w = className (prefix (this w)) (VObject style).
Proof. unfold result. by rewrite css_run. Qed.

(** C4. Two descriptions that are structurally equal, their keys written
    in different orders at any depth, get the same class name on facades
    of the same prefix, fresh ones in particular: the serializer sorts the
    keys of objects and keeps the order of sequences. *)
Theorem css_key_order_invariant (d1 d2 : obj) (w1 w2 : Runtime) :
  reordered (VObject d1) (VObject d2) ->
  prefix (this w1) = prefix (this w2) ->
  result (css process d1) w1 = result (css process d2) w2.
Proof.
  intros Hr Hp. rewrite !css_result. unfold className.
  by rewrite Hp, (stableStringify_reordered _ _ Hr).
Qed.

(** C7, as the code has it. The class name is the prefix, an underscore
    and a token; the token is the base-36 text of the 64-bit hash (a text
    that reads back as the hash) cut to its first 9 characters, so it has
    from 1 to 9 base-36 characters, and exactly 9 when the hash is at
    least [36^8]. *)
Theorem class_name_token (style : obj) (w : Runtime) :
  let seed := interp (stableStringify (VObject style)) in
  let token := createHashName seed in
  result (css process style) w = prefix (this w) +:+ "_" +:+ token /\
  token = Js.slice0 9 (Js.toStringRadix 36 (hashValue seed)) /\
  readRadix 36 (Js.toStringRadix 36 (hashValue seed)) 0 = hashValue seed /\
  (hashValue seed < 2 ^ 64)%N /\
  allBase36 token /\
  1 <= String.length token <= 9 /\
  (String.length token = 9 <-> (36 ^ 8 <= hashValue seed)%N).
Proof.
  intros seed token. split; [by rewrite css_result|]. split; [done|].
  split; [by apply toStringRadix_read|].
  split; [apply hashValue_bound|]. split.
  { apply slice0_base36, toStringRadix_go_base36. constructor. }
  subst token. unfold createHashName. rewrite slice0_length.
  pose proof (toStringRadix_nonempty 36 (hashValue seed)) as H1.
  split; [lia|]. split.
  - intros H. destruct (N.le_gt_cases (36 ^ 8) (hashValue seed)) as [|Hlt]; [done|].
    pose proof (toString36_length_le 7 (hashValue seed) Hlt). lia.
  - intros H. pose proof (toString36_length_ge 8 (hashValue seed) H). lia.
Qed.

(** ** Compiling nested states and breakpoints *)

(** C5. A breakpoint inside a pseudo state compiles to one rule: on a
    facade that does not hold the class yet, [css] of
    [{ _hover: { _lg: { opacity: 0.5 } } }] stores the transform of
    [@media (min-width:1024px){.<class>:hover{opacity:0.5}}]; the selector
    carries [:hover] and the media condition is the merge of the absent
    outer condition with the fixed condition of [_lg]. *)
Theorem hover_breakpoint_one_rule (w : Runtime) :
  let d := [("_hover", VObject [("_lg", VObject [("opacity", num "0.5")])])] in
  let name := result (css process d) w in
  cache_ok process w ->
  RuleMap.has (rules (this w)) ("class:" +:+ name) = false ->
  (forall sel,
     serializeNested (VObject d) {| selector := sel; media := None |} =
       "@media (min-width:1024px){" +:+ sel +:+ ":hover{opacity:0.5}}") /\
  (forall sel,
     mediaContext (pseudoContext {| selector := sel; media := None |} "_hover")
                  "(min-width:1024px)" =
       {| selector := sel +:+ ":hover"; media := Some "(min-width:1024px)" |}) /\
  name = prefix (this w) +:+ "_3brrgur06" /\
  rules (this (after (css process d) w)) =
    rules (this w) ++
    [("class:" +:+ name,
      process ("@media (min-width:1024px){." +:+ name +:+ ":hover{opacity:0.5}}"))].
Proof.
  intros d name Hok Hhas.
  assert (Hraw : forall sel,
            serializeNested (VObject d) {| selector := sel; media := None |} =
              "@media (min-width:1024px){" +:+ sel +:+ ":hover{opacity:0.5}}").
  { intros sel. cbv -[String.append]. by rewrite !append_assoc. }
  split; [done|]. split; [done|]. split.
  - subst name. rewrite css_result. unfold className. f_equal; by vm_compute.
  - subst name. rewrite css_result in *. unfold after. rewrite css_run.
    rewrite Hhas. cbn [snd this rules]. do 3 f_equal.
    change (fst (postcssTransform process ?raw w)) with (result (postcssTransform process raw) w).
    rewrite postcssTransform_result by done. by rewrite Hraw.
Qed.

(** ** The empty description *)

(** C9. On a new facade, [css] of the empty description returns a class
    name and stores a rule whose text is empty, the processor leaving the
    empty text empty; [toTextCss] then returns one line feed, where it
    returned [null] before the call. *)
Theorem css_empty_exports_newline (p : string) :
  process "" = "" ->
  let w := fresh p in
  let w' := after (css process []) w in
  result (css process []) w = p +:+ "_4wh4ijxo4" /\
  rules (this w') = [("class:" +:+ p +:+ "_4wh4ijxo4", "")] /\
  result toTextCss w' = Some Js.newline /\
  result toTextCss w = None.
Proof.
  intros Hempty w w'.
  assert (Hname : className p (VObject []) = p +:+ "_4wh4ijxo4").
  { unfold className. f_equal; by vm_compute. }
  assert (Hrules : rules (this w') = [("class:" +:+ p +:+ "_4wh4ijxo4", "")]).
  { subst w' w. unfold after. rewrite css_run. cbn [fresh create this prefix rules].
    cbn [RuleMap.has existsb snd this rules app]. rewrite Hname. do 2 f_equal.
    change (fst (postcssTransform process ?raw ?s)) with (result (postcssTransform process raw) s).
    rewrite postcssTransform_result by apply cache_ok_fresh. exact Hempty. }
  split; [by rewrite css_result|]. split; [done|]. split; [|done].
  unfold result, toTextCss, bind, getThis, ret. cbn [fst snd]. by rewrite Hrules.
Qed.

End EngineFacts.

(** * Concrete runs *)

(** ** Global rules *)

Lemma global_twice_merges_witness :
  let process := identityTransform in
  let w := fresh "next" in
  let d1 := [("margin", num "0")] in
  let d2 := [("padding", num "0")] in
  cache_ok process w /\
  globalStore (this w) !! "global:body" = None /\
  NoDup (ownKeys d1) /\ NoDup (ownKeys d2) /\
  RuleMap.entries
    (rules (this (after (global process "body" d1 ;; global process "body" d2) w)))
    "global:body" =
    [("global:body",
      process (serializeNested (VObject (spread2 (spread2 [] d1) d2))
                 {| selector := "body"; media := None |}))] /\
  (forall k, obj_lookup (spread2 (spread2 [] d1) d2) k =
               match obj_lookup d2 k with Some v => Some v | None => obj_lookup d1 k end).
Proof.
  intros process w d1 d2.
  assert (Hok : cache_ok process w) by apply cache_ok_fresh.
  assert (Hnone : globalStore (this w) !! ("global:" +:+ "body") = None) by reflexivity.
  assert (H1 : NoDup (ownKeys d1)) by (apply NoDup_singleton).
  assert (H2 : NoDup (ownKeys d2)) by (apply NoDup_singleton).
  split; [exact Hok|]. split; [exact Hnone|]. split; [exact H1|]. split; [exact H2|].
  exact (global_twice_merges process "body" d1 d2 w Hok Hnone H1 H2).
Defined.

(** [global("body", { margin: 0 })] then [global("body", { padding: 0 })]:
    one rule, holding both declarations. *)
Example global_body_accumulates :
  rules (this (after (global identityTransform "body" [("margin", num "0")] ;;
                      global identityTransform "body" [("padding", num "0")])
                     (fresh "next"))) =
    [("global:body", "body{margin:0;padding:0}")].
Proof. by vm_compute. Qed.

(** The earlier variant keeps the first definition of a selector. *)
Example earlier_global_keeps_first :
  rules (this (after (EarlierVariant.global identityTransform "body" [("margin", num "0")] ;;
                      EarlierVariant.global identityTransform "body" [("padding", num "0")])
                     (fresh "next"))) =
    [("global:body", "body{ margin:0 }")].
Proof. by vm_compute. Qed.

(** C2, the claim fails. After [global a], [global b] and [global a] again,
    the rule of [a] has moved from the first place to the last. *)
Lemma global_redefinition_changes_position :
  let process := identityTransform in
  let w1 := after (global process "a" [("color", str "red")] ;;
                   global process "b" [("color", str "blue")]) (fresh "next") in
  let w2 := after (global process "a" [("color", str "green")]) w1 in
  position "global:a" (rules (this w1)) = Some 0 /\
  position "global:a" (rules (this w2)) = Some 1 /\
  RuleMap.keys (rules (this w2)) = ["global:b"; "global:a"] /\
  result toTextCss w2 =
    Some ("b{color:blue}" +:+ Js.newline +:+ "a{color:green}" +:+ Js.newline).
Proof. by vm_compute. Qed.

(** ** The class store *)

Lemma css_twice_same_name_one_rule_witness :
  let process := identityTransform in
  let w := fresh "next" in
  let style := [("color", str "red")] in
  NoDup (RuleMap.keys (rules (this w))) /\
  (let first := css process style w in
   let second := css process style (snd first) in
   fst second = fst first /\
   snd second = snd first /\
   length (RuleMap.entries (rules (this (snd first))) ("class:" +:+ fst first)) = 1).
Proof.
  intros process w style.
  assert (H : NoDup (RuleMap.keys (rules (this w)))) by apply NoDup_nil_2.
  split; [exact H|]. exact (css_twice_same_name_one_rule process style w H).
Defined.

Lemma css_key_order_invariant_witness :
  let process := identityTransform in
  let d1 := [("a", num "1"); ("b", num "2")] in
  let d2 := [("b", num "2"); ("a", num "1")] in
  reordered (VObject d1) (VObject d2) /\
  prefix (this (fresh "next")) = prefix (this (fresh "next")) /\
  result (css process d1) (fresh "next") = result (css process d2) (fresh "next").
Proof.
  intros process d1 d2.
  assert (Hr : reordered (VObject d1) (VObject d2)).
  { apply (reordered_object d1 d2 d2).
    - apply NoDup_cons. split; [|apply NoDup_singleton].
      intros H. by apply list_elem_of_singleton in H.
    - apply Permutation_swap.
    - repeat constructor. }
  split; [exact Hr|]. split; [reflexivity|].
  exact (css_key_order_invariant process d1 d2 (fresh "next") (fresh "next") Hr eq_refl).
Defined.

(** The serializer keeps the order of sequences. *)
Example stableStringify_sequence_order :
  stableStringify (VArray [num "1"; num "2"]) = Some "[1,2]" /\
  stableStringify (VArray [num "2"; num "1"]) = Some "[2,1]".
Proof. by vm_compute. Qed.

(** C7, the claim fails. [css({ zIndex: 744678 })]: the hash is below
    [36^8] and the token has 8 characters. *)
Lemma class_token_shorter_than_nine :
  let style := [("zIndex", num "744678")] in
  stableStringify (VObject style) =
    Some (String "{" (String Js.dquote ("zIndex" +:+ String Js.dquote ":744678}"))) /\
  hashValue (interp (stableStringify (VObject style))) = 804839230295%N /\
  result (css identityTransform style) (fresh "next") = "next_a9qkhwlz" /\
  String.length (createHashName (interp (stableStringify (VObject style)))) = 8.
Proof. by vm_compute. Qed.

(** ** Compiling *)

Lemma hover_breakpoint_one_rule_witness :
  let process := identityTransform in
  let w := fresh "next" in
  let d := [("_hover", VObject [("_lg", VObject [("opacity", num "0.5")])])] in
  let name := result (css process d) w in
  cache_ok process w /\
  RuleMap.has (rules (this w)) ("class:" +:+ name) = false /\
  (forall sel,
     serializeNested (VObject d) {| selector := sel; media := None |} =
       "@media (min-width:1024px){" +:+ sel +:+ ":hover{opacity:0.5}}") /\
  (forall sel,
     mediaContext (pseudoContext {| selector := sel; media := None |} "_hover")
                  "(min-width:1024px)" =
       {| selector := sel +:+ ":hover"; media := Some "(min-width:1024px)" |}) /\
  name = prefix (this w) +:+ "_3brrgur06" /\
  rules (this (after (css process d) w)) =
    rules (this w) ++
    [("class:" +:+ name,
      process ("@media (min-width:1024px){." +:+ name +:+ ":hover{opacity:0.5}}"))].
Proof.
  intros process w d name.
  assert (Hok : cache_ok process w) by apply cache_ok_fresh.
  assert (Hhas : RuleMap.has (rules (this w)) ("class:" +:+ name) = false) by reflexivity.
  split; [exact Hok|]. split; [exact Hhas|].
  exact (hover_breakpoint_one_rule process w Hok Hhas).
Defined.

(** [css({ color: "red", _md: { color: "blue" } })] compiles to the bare
    rule followed by the rule under the breakpoint. *)
Example breakpoint_nesting :
  serializeNested
    (VObject [("color", str "red"); ("_md", VObject [("color", str "blue")])])
    {| selector := ".c"; media := None |} =
  ".c{color:red}@media (min-width:768px){.c{color:blue}}".
Proof. by vm_compute. Qed.

Lemma scalar_declaration_emitted_witness :
  let style := [("backgroundColor", str "blue"); ("_foo", num "1")] in
  let ctx := {| selector := ".a"; media := None |} in
  In ("backgroundColor", str "blue") style /\
  scalar (str "blue") = true /\
  Js.startsWith "_" "backgroundColor" = false /\
  contains (toKebabCase "backgroundColor" +:+ ":" +:+ toStr (str "blue"))
           (serializeNested (VObject style) ctx) /\
  declarations (VObject style) =
    declarations
      (VObject (List.filter (fun p => negb (Js.startsWith "_" (fst p))) style)) /\
  Forall (fun reservedKey => Js.startsWith "_" reservedKey = true) reservedKeys.
Proof.
  intros style ctx.
  assert (Hin : In ("backgroundColor", str "blue") style) by (left; reflexivity).
  split; [exact Hin|]. split; [reflexivity|]. split; [reflexivity|].
  exact (scalar_declaration_emitted style "backgroundColor" (str "blue") ctx
           Hin eq_refl eq_refl).
Defined.

(** C6, the claim fails. [_foo] is none of the eight reserved keys, does
    not start with [--] and holds a scalar, and no declaration is emitted
    for it. *)
Lemma underscore_key_not_emitted :
  let style := [("_foo", num "1")] in
  let ctx := {| selector := ".a"; media := None |} in
  ~ In "_foo" reservedKeys /\
  Js.startsWith "--" "_foo" = false /\
  scalar (num "1") = true /\
  serializeNested (VObject style) ctx = "" /\
  ~ contains (toKebabCase "_foo" +:+ ":" +:+ toStr (num "1"))
             (serializeNested (VObject style) ctx).
Proof.
  intros style ctx. split.
  { cbv [In reservedKeys PSEUDOS MEDIA_MAP map fst app]. intuition discriminate. }
  split; [reflexivity|]. split; [reflexivity|]. split; [reflexivity|].
  change (serializeNested (VObject style) ctx) with "".
  by apply not_contains_empty.
Qed.

(** ** The empty description *)

Lemma css_empty_exports_newline_witness :
  let process := identityTransform in
  let w := fresh "next" in
  let w' := after (css process []) w in
  process "" = "" /\
  result (css process []) w = "next" +:+ "_4wh4ijxo4" /\
  rules (this w') = [("class:" +:+ "next" +:+ "_4wh4ijxo4", "")] /\
  result toTextCss w' = Some Js.newline /\
  result toTextCss w = None.
Proof.
  intros process w w'.
  split; [reflexivity|]. exact (css_empty_exports_newline process "next" eq_refl).
Defined.

(** * Further properties of the code *)

(** ** Property names *)







(** ** Media conditions *)



(** ** Nesting *)

Lemma compileAt_single (key : string) (v : value) (k : string) (ctx : SerializeContext) :
  compileAt (VObject [(key, v)]) k ctx =
    if String.eqb key k then (if truthy v then serializeNested v ctx else "") else "".
Proof.
  unfold compileAt, reserved, obj_get. cbn [obj_lookup].
  by destruct (String.eqb key k).
Qed.

(** A description that only holds one reserved key compiles to what the
    value under that key compiles to, in the context of the key. *)
Lemma serializeNested_pseudo_only (p : string) (v : value) (ctx : SerializeContext) :
  In p PSEUDOS ->
  serializeNested (VObject [(p, v)]) ctx =
    if truthy v then serializeNested v (pseudoContext ctx p) else "".
Proof.
  intros Hp. rewrite serializeNested_eq.
  assert (Hd : declarations (VObject [(p, v)]) = []).
  { unfold declarations. cbn [forIn flat_map fst snd].
    assert (Js.startsWith "_" p = true) as ->
      by (cbv [In PSEUDOS] in Hp; by destruct Hp as [<-|[<-|[<-|[]]]]).
    by rewrite !orb_true_r. }
  rewrite Hd. cbn [ruleText PSEUDOS MEDIA_MAP map fst snd String.concat].
  rewrite !compileAt_single.
  cbv [In PSEUDOS] in Hp. destruct Hp as [<-|[<-|[<-|[]]]]; cbn [String.eqb Ascii.eqb Bool.eqb];
    destruct (truthy v); cbn; by rewrite ?append_nil_r.
Qed.

Lemma serializeNested_breakpoint_only (m : string * string) (v : value) (ctx : SerializeContext) :
  In m MEDIA_MAP ->
  serializeNested (VObject [(fst m, v)]) ctx =
    if truthy v then serializeNested v (mediaContext ctx (snd m)) else "".
Proof.
  intros Hm. rewrite serializeNested_eq.
  assert (Hd : declarations (VObject [(fst m, v)]) = []).
  { unfold declarations. cbn [forIn flat_map fst snd].
    assert (Js.startsWith "_" (fst m) = true) as ->
      by (cbv [In MEDIA_MAP] in Hm; by destruct Hm as [<-|[<-|[<-|[<-|[<-|[]]]]]]).
    by rewrite !orb_true_r. }
  rewrite Hd. cbn [ruleText PSEUDOS MEDIA_MAP map fst snd String.concat].
  rewrite !compileAt_single.
  cbv [In MEDIA_MAP] in Hm.
  destruct Hm as [<-|[<-|[<-|[<-|[<-|[]]]]]]; cbn [fst snd String.eqb Ascii.eqb Bool.eqb];
    destruct (truthy v); cbn; by rewrite ?append_nil_r.
Qed.

(** X3. A breakpoint inside a pseudo state and the pseudo state inside the
    breakpoint compile to the same text: what the inner description
    compiles to under the selector with the state suffix and the merged
    media condition. *)
Theorem state_and_breakpoint_commute
  (p : string) (m : string * string) (inner : obj) (ctx : SerializeContext) :
  In p PSEUDOS ->
  In m MEDIA_MAP ->
  let ctx' := {| selector := selector ctx +:+ ":" +:+ slice1 p;
                 media := mergeMedia (media ctx) (Some (snd m)) |} in
  serializeNested (VObject [(p, VObject [(fst m, VObject inner)])]) ctx =
    serializeNested (VObject inner) ctx' /\
  serializeNested (VObject [(fst m, VObject [(p, VObject inner)])]) ctx =
    serializeNested (VObject inner) ctx'.
Proof.
  intros Hp Hm ctx'. split.
  - rewrite serializeNested_pseudo_only by done. cbn [truthy].
    by rewrite serializeNested_breakpoint_only by done.
  - rewrite serializeNested_breakpoint_only by done. cbn [truthy].
    by rewrite serializeNested_pseudo_only by done.
Qed.

(** ** What the compiler reads *)

Lemma declarations_filter (o : obj) :
  declarations (VObject o) =
    map (fun p => toKebabCase (fst p) +:+ ":" +:+ toStr (snd p))
        (List.filter (fun p => negb (skipped p)) o).
Proof.
  unfold declarations, skipped. cbn [forIn].
  induction o as [|p o IH]; [done|]. cbn [flat_map List.filter].
  destruct (isNullish (snd p) || isObjectType (snd p) || Js.startsWith "_" (fst p));
    cbn [negb app map]; by rewrite IH.
Qed.


(** X4. The compiled text of a description is fixed by its declarations,
    the entries the first loop does not pass over, in their order, and by
    the values under the eight reserved keys: where the reserved keys stand
    among the entries, and any other entry that is passed over, changes
    nothing. The rules always come out base rule first, then hover, focus,
    active, then the breakpoints from [_sm] to [_xxl]. *)
Theorem serializeNested_reads (o1 o2 : obj) (ctx : SerializeContext) :
  List.filter (fun p => negb (skipped p)) o1 = List.filter (fun p => negb (skipped p)) o2 ->
  (forall k, In k reservedKeys -> obj_get o1 k = obj_get o2 k) ->
  serializeNested (VObject o1) ctx = serializeNested (VObject o2) ctx.
Proof.
  intros Hd Hk. rewrite !serializeNested_eq, !declarations_filter, Hd.
  unfold compileAt, reserved. cbn [PSEUDOS MEDIA_MAP map fst snd].
  rewrite !Hk; [done|..]; cbv [In reservedKeys PSEUDOS MEDIA_MAP map fst app]; tauto.
Qed.


(** ** Merging descriptions *)

Lemma obj_set_new (t : obj) (k : string) (v : value) :
  obj_lookup t k = None -> Js.arrayIndex k = None -> obj_set t k v = t ++ [(k, v)].
Proof. intros Hk Hi. unfold obj_set, obj_has. by rewrite Hk, Hi. Qed.

Lemma obj_set_old (t : obj) (k : string) (v : value) :
  obj_lookup t k <> None -> ownKeys (obj_set t k v) = ownKeys t.
Proof.
  intros Hk. unfold obj_set, obj_has.
  destruct (obj_lookup t k); [apply ownKeys_replace|done].
Qed.

Lemma obj_has_app_new (t : obj) (k : string) (v : value) (k' : string) :
  k' <> k -> obj_has (t ++ [(k, v)]) k' = obj_has t k'.
Proof.
  intros Hne. unfold obj_has. rewrite obj_lookup_app. cbn [obj_lookup].
  destruct (obj_lookup t k'); [done|]. by destruct (String.eqb_spec k k').
Qed.

Lemma obj_has_set (t : obj) (k : string) (v : value) (k' : string) :
  obj_has (obj_set t k v) k' = String.eqb k k' || obj_has t k'.
Proof.
  unfold obj_has at 1. rewrite obj_lookup_set. unfold obj_has.
  by destruct (String.eqb k k').
Qed.

Lemma obj_assign_keys (t s : obj) :
  plainKeys s ->
  ownKeys (obj_assign t s) =
    ownKeys t ++ List.filter (fun k => negb (obj_has t k)) (ownKeys s).
Proof.
  unfold obj_assign, plainKeys. revert t.
  induction s as [|[k v] s IH]; intros t [Hnd Hplain]; cbn [fold_left ownKeys map List.filter fst snd].
  { by rewrite app_nil_r. }
  apply NoDup_cons in Hnd as [Hnin Hnd]. apply Forall_cons in Hplain as [Hk Hplain].
  fold (ownKeys s). rewrite (IH _ (conj Hnd Hplain)).
  assert (Hfilter : List.filter (fun k' => negb (obj_has (obj_set t k v) k')) (ownKeys s) =
                    List.filter (fun k' => negb (obj_has t k')) (ownKeys s)).
  { apply List.filter_ext_in. intros k' Hin. rewrite obj_has_set.
    destruct (String.eqb_spec k k') as [->|]; [|done].
    destruct Hnin. by apply list_elem_of_In. }
  rewrite Hfilter. destruct (obj_lookup t k) as [v0|] eqn:E.
  - assert (obj_has t k = true) as -> by (unfold obj_has; by rewrite E).
    cbn [negb]. rewrite obj_set_old; [done|]. by rewrite E.
  - assert (obj_has t k = false) as -> by (unfold obj_has; by rewrite E).
    cbn [negb]. rewrite obj_set_new by done. unfold ownKeys. rewrite map_app. cbn [map fst].
    by rewrite <- app_assoc.
Qed.

Lemma obj_assign_disjoint (t s : obj) :
  plainKeys s ->
  (forall k, k ∈ ownKeys s -> obj_lookup t k = None) ->
  obj_assign t s = t ++ s.
Proof.
  unfold obj_assign, plainKeys. revert t.
  induction s as [|[k v] s IH]; intros t [Hnd Hplain] Hdis; cbn [fold_left fst snd].
  { by rewrite app_nil_r. }
  apply NoDup_cons in Hnd as [Hnin Hnd]. apply Forall_cons in Hplain as [Hk Hplain].
  rewrite obj_set_new by (done || apply Hdis, list_elem_of_here).
  rewrite (IH _ (conj Hnd Hplain)).
  - by rewrite <- app_assoc.
  - intros k' Hin. rewrite obj_lookup_app, Hdis by (by apply list_elem_of_further).
    cbn [obj_lookup]. destruct (String.eqb_spec k k') as [->|]; [by destruct Hnin|done].
Qed.

Lemma spread2_first (d : obj) : plainKeys d -> spread2 [] d = d.
Proof. intros H. unfold spread2. cbn [obj_assign fold_left]. by rewrite obj_assign_disjoint. Qed.

(** X6. Merging a description into another, [{ ...a, ...b }], keeps every
    key of [a] at its place and puts the new keys of [b] behind, in the
    order [b] has them; a key of both takes the value of [b] where [a] had
    it. So a property that is set again keeps its place among the
    declarations. *)
Theorem spread_keeps_first_places (a b : obj) :
  plainKeys a ->
  plainKeys b ->
  ownKeys (spread2 a b) =
    ownKeys a ++ List.filter (fun k => negb (obj_has a k)) (ownKeys b) /\
  (forall k, obj_lookup (spread2 a b) k =
               match obj_lookup b k with Some v => Some v | None => obj_lookup a k end) /\
  spread2 [] a = a /\
  spread2 a [] = a.
Proof.
  intros Ha Hb. assert (Hid : spread2 [] a = a) by by apply spread2_first.
  split; [|split; [|split; [exact Hid|]]].
  - unfold spread2. rewrite obj_assign_keys by done.
    by rewrite obj_assign_disjoint by done.
  - intros k. apply obj_lookup_spread2; [apply Ha|apply Hb].
  - unfold spread2. cbn [obj_assign fold_left]. by apply obj_assign_disjoint.
Qed.

(** ** The transform cache and the facade *)

Section FacadeFacts.

Variable process : string -> string.


Lemma global_this sel style w :
  cache_ok process w ->
  this (after (global process sel style) w) = globalStep process (this w) sel style.
Proof.
  intros Hok. pose proof (global_rules process sel style w Hok) as Hr.
  pose proof (global_globalStore process sel style w) as Hg.
  pose proof (global_prefix process sel style w) as Hp.
  destruct (this (after (global process sel style) w)) as [p r g].
  cbn [prefix rules globalStore] in *. unfold globalStep. by subst.
Qed.

Lemma add_once_this key raw w :
  cache_ok process w ->
  let t := postcssTransform process raw w in
  this (if RuleMap.has (rules (this w)) key then w
        else {| postcssCache := postcssCache (snd t);
                this := {| prefix := prefix (this w);
                           rules := rules (this w) ++ [(key, fst t)];
                           globalStore := globalStore (this w) |} |}) =
  if RuleMap.has (rules (this w)) key then this w
  else {| prefix := prefix (this w);
          rules := rules (this w) ++ [(key, process raw)];
          globalStore := globalStore (this w) |}.
Proof.
  intros Hok t. destruct (RuleMap.has (rules (this w)) key); [done|].
  cbn [this]. subst t.
  change (fst (postcssTransform process raw w)) with (result (postcssTransform process raw) w).
  by rewrite postcssTransform_result.
Qed.

(** X8. The facade an operation leaves behind, and the name it returns,
    do not depend on what the shared transform cache holds, as long as it
    holds outputs of the processor: two runtimes with the same facade end
    with the same facade, whatever other facades put into the cache. *)
Theorem facade_independent_of_cache (w1 w2 : Runtime) :
  cache_ok process w1 ->
  cache_ok process w2 ->
  this w1 = this w2 ->
  (forall style,
     result (css process style) w1 = result (css process style) w2 /\
     this (after (css process style) w1) = this (after (css process style) w2)) /\
  (forall sel style,
     this (after (global process sel style) w1) =
     this (after (global process sel style) w2)) /\
  (forall frames,
     result (keyframes process frames) w1 = result (keyframes process frames) w2 /\
     this (after (keyframes process frames) w1) =
     this (after (keyframes process frames) w2)) /\
  (forall font,
     this (after (fontFace process font) w1) = this (after (fontFace process font) w2)).
Proof.
  intros H1 H2 Ht. split; [|split; [|split]].
  - intros style. unfold result, after. rewrite !css_run. cbn [fst snd].
    rewrite !add_once_this by done. by rewrite Ht.
  - intros sel style. rewrite !global_this by done. by rewrite Ht.
  - intros frames. unfold result, after. rewrite !keyframes_run. cbn [fst snd].
    rewrite !add_once_this by done. by rewrite Ht.
  - intros font. unfold after. rewrite !fontFace_run. cbn [fst snd].
    rewrite !add_once_this by done. by rewrite Ht.
Qed.

Lemma store_ok_bind {A B} (c : State A) (k : A -> State B) w :
  store_ok process (after c w) ->
  (forall a w', store_ok process w' -> store_ok process (after (k a) w')) ->
  store_ok process (after (bind c k) w).
Proof. intros Hc Hk. unfold after, bind in *. cbn [snd]. by apply Hk. Qed.

Lemma store_ok_resetStyle w :
  store_ok process w -> store_ok process (after (resetStyle process) w).
Proof.
  intros H. unfold resetStyle.
  apply store_ok_bind; [by apply store_ok_global|]. intros _ w1 H1.
  apply store_ok_bind; [by apply store_ok_global|]. intros _ w2 H2.
  apply store_ok_bind; [by apply store_ok_global|]. intros _ w3 H3.
  by apply store_ok_global.
Qed.

(** X9. Every rule-defining operation keeps the runtime well formed: the
    keys of the rule map stay pairwise distinct and the cache keeps
    holding outputs of the processor. It holds of a new facade, hence
    after any sequence of operations. *)
Theorem operations_keep_store_ok (w : Runtime) :
  store_ok process w ->
  (forall style, store_ok process (after (css process style) w)) /\
  (forall sel style, store_ok process (after (global process sel style) w)) /\
  (forall style, store_ok process (after (root process style) w)) /\
  store_ok process (after (resetStyle process) w) /\
  (forall b c target style, store_ok process (after (emit process b c target style) w)) /\
  (forall frames, store_ok process (after (keyframes process frames) w)) /\
  (forall font, store_ok process (after (fontFace process font) w)) /\
  (forall p, store_ok process (fresh p)).
Proof.
  intros H.
  refine (conj _ (conj _ (conj _ (conj _ (conj _ (conj _ (conj _ _))))))); intros.
  - by apply store_ok_css.
  - by apply store_ok_global.
  - unfold root. by apply store_ok_global.
  - by apply store_ok_resetStyle.
  - unfold emit. by apply store_ok_global.
  - by apply store_ok_keyframes.
  - by apply store_ok_fontFace.
  - apply store_ok_fresh.
Qed.


(** ** Defining and exporting *)

Lemma add_once_has key w (text : string) (c : gmap string string) :
  RuleMap.has
    (rules (this (if RuleMap.has (rules (this w)) key then w
                  else {| postcssCache := c;
                          this := {| prefix := prefix (this w);
                                     rules := rules (this w) ++ [(key, text)];
                                     globalStore := globalStore (this w) |} |})))
    key = true /\
  prefix (this (if RuleMap.has (rules (this w)) key then w
                else {| postcssCache := c;
                        this := {| prefix := prefix (this w);
                                   rules := rules (this w) ++ [(key, text)];
                                   globalStore := globalStore (this w) |} |})) =
  prefix (this w).
Proof.
  destruct (RuleMap.has (rules (this w)) key) eqn:E; [done|].
  cbn [this rules prefix]. rewrite RuleMapFacts.has_app.
  unfold RuleMap.has at 2, RuleMap.is_key. cbn [existsb fst]. rewrite String.eqb_refl.
  by rewrite orb_true_r.
Qed.

(** X10. The first [global] for a selector compiles the description as it
    was given and keeps it as the accumulator; the next one compiles the
    merge [{ ...d1, ...d2 }] and keeps that. *)
Theorem global_first_definition (sel : string) (d1 d2 : obj) (w : Runtime) :
  cache_ok process w ->
  globalStore (this w) !! ("global:" +:+ sel) = None ->
  plainKeys d1 ->
  let key := "global:" +:+ sel in
  let ctx := {| selector := sel; media := None |} in
  let w1 := after (global process sel d1) w in
  let w2 := after (global process sel d2) w1 in
  this w1 =
    {| prefix := prefix (this w);
       rules := RuleMap.delete (rules (this w)) key ++
                [(key, process (serializeNested (VObject d1) ctx))];
       globalStore := <[key := d1]> (globalStore (this w)) |} /\
  this w2 =
    {| prefix := prefix (this w);
       rules := RuleMap.delete (rules (this w)) key ++
                [(key, process (serializeNested (VObject (spread2 d1 d2)) ctx))];
       globalStore := <[key := spread2 d1 d2]> (globalStore (this w)) |}.
Proof.
  intros Hok Hnone Hd1 key ctx w1 w2.
  assert (H1 : this w1 =
    {| prefix := prefix (this w);
       rules := RuleMap.delete (rules (this w)) key ++
                [(key, process (serializeNested (VObject d1) ctx))];
       globalStore := <[key := d1]> (globalStore (this w)) |}).
  { subst w1. rewrite global_this by done. unfold globalStep.
    rewrite Hnone. cbn [default]. by rewrite spread2_first. }
  split; [exact H1|].
  subst w2. rewrite global_this by by apply global_cache_ok.
  unfold globalStep. rewrite H1. cbn [prefix rules globalStore].
  rewrite lookup_insert_eq. cbn [default]. rewrite insert_insert_eq.
  by rewrite RuleMapFacts.delete_added.
Qed.

Lemma concat_empty_cons (x : string) (l : list string) :
  String.concat "" (x :: l) = x +:+ String.concat "" l.
Proof. destruct l; cbn [String.concat]; [by rewrite append_nil_r|done]. Qed.

Lemma export_fold_concat (l : list string) :
  fold_left (fun cssText rule => cssText +:+ rule +:+ Js.newline) l "" =
  String.concat "" (map (fun rule => rule +:+ Js.newline) l).
Proof.
  induction l as [|r l IH]; [done|].
  cbn [fold_left map]. rewrite exportText_fold, IH, concat_empty_cons.
  change ("" +:+ r +:+ Js.newline) with (r +:+ Js.newline). done.
Qed.

(** X11. [toTextCss] reads the store without changing it. It returns
    [null] exactly when no rule is stored, and otherwise every stored text
    followed by one line feed, in the order of the rule map; after [css],
    [global], [keyframes] or [fontFace] it is never [null]. *)
Theorem toTextCss_export (w : Runtime) :
  after toTextCss w = w /\
  (result toTextCss w = None <-> rules (this w) = []) /\
  result toTextCss w =
    (if Nat.eqb (length (rules (this w))) 0 then None
     else Some (String.concat ""
                  (map (fun rule => rule +:+ Js.newline) (RuleMap.values (rules (this w)))))) /\
  (forall style, result toTextCss (after (css process style) w) <> None) /\
  (forall sel style, result toTextCss (after (global process sel style) w) <> None) /\
  (forall frames, result toTextCss (after (keyframes process frames) w) <> None) /\
  (forall font, result toTextCss (after (fontFace process font) w) <> None).
Proof.
  assert (Hnull : forall w', result toTextCss w' = None <-> rules (this w') = []).
  { intros w'. unfold result, toTextCss, bind, getThis, ret, exportText, RuleMap.size.
    cbn [fst snd]. by destruct (rules (this w')). }
  assert (Honce : forall key text c,
            rules (this (if RuleMap.has (rules (this w)) key then w
                         else {| postcssCache := c;
                                 this := {| prefix := prefix (this w);
                                            rules := rules (this w) ++ [(key, text)];
                                            globalStore := globalStore (this w) |} |})) <> []).
  { intros key text c. destruct (RuleMap.has (rules (this w)) key) eqn:E.
    - by destruct (rules (this w)).
    - cbn [this rules]. by destruct (rules (this w)). }
  split; [done|]. split; [apply Hnull|]. split.
  { unfold result, toTextCss, bind, getThis, ret, exportText, RuleMap.size. cbn [fst snd].
    destruct (Nat.eqb (length (rules (this w))) 0); [done|]. by rewrite export_fold_concat. }
  split; [|split; [|split]].
  - intros style. rewrite Hnull. unfold after. rewrite css_run. apply Honce.
  - intros sel style. rewrite Hnull, global_run. cbn [this rules].
    by destruct (RuleMap.delete (rules (this w)) ("global:" +:+ sel)).
  - intros frames. rewrite Hnull. unfold after. rewrite keyframes_run. apply Honce.
  - intros font. rewrite Hnull. unfold after. rewrite fontFace_run. apply Honce.
Qed.

(** X12. [StyleProvider] is [toTextCss] in a [style] element: it returns
    [null] exactly when [toTextCss] does, and otherwise the element whose
    type is [style] and whose children are the exported text; it changes
    nothing. *)
Theorem StyleProvider_wraps_export (w : Runtime) :
  result StyleProvider w = createElement "style" <$> result toTextCss w /\
  after StyleProvider w = w /\
  (result StyleProvider w = None <-> rules (this w) = []).
Proof.
  unfold result, after, StyleProvider, toTextCss, bind, getThis, ret, exportText, RuleMap.size.
  cbn [fst snd]. split; [|split; [done|]].
  - by destruct (Nat.eqb (length (rules (this w))) 0).
  - by destruct (rules (this w)).
Qed.

Lemma css_stored style w :
  RuleMap.has (rules (this (after (css process style) w)))
              ("class:" +:+ className (prefix (this w)) (VObject style)) = true /\
  prefix (this (after (css process style) w)) = prefix (this w).
Proof. unfold after. rewrite css_run. cbn [snd]. apply add_once_has. Qed.

Lemma css_again style w :
  RuleMap.has (rules (this w))
              ("class:" +:+ className (prefix (this w)) (VObject style)) = true ->
  css process style w = (className (prefix (this w)) (VObject style), w).
Proof. intros H. rewrite css_run. by rewrite H. Qed.

Lemma keyframes_stored frames w :
  RuleMap.has (rules (this (after (keyframes process frames) w)))
              ("@keyframes:" +:+ className (prefix (this w)) (VObject frames)) = true /\
  prefix (this (after (keyframes process frames) w)) = prefix (this w).
Proof. unfold after. rewrite keyframes_run. cbn [snd]. apply add_once_has. Qed.

Lemma keyframes_again frames w :
  RuleMap.has (rules (this w))
              ("@keyframes:" +:+ className (prefix (this w)) (VObject frames)) = true ->
  keyframes process frames w = (className (prefix (this w)) (VObject frames), w).
Proof. intros H. rewrite keyframes_run. by rewrite H. Qed.

Lemma keyframes_result frames w :
  result (keyframes process frames) w = className (prefix (this w)) (VObject frames).
Proof. unfold result. by rewrite keyframes_run. Qed.

Lemma fontFace_stored font w :
  RuleMap.has (rules (this (after (fontFace process font) w)))
              ("@font-face:" +:+ createHashName (interp (stableStringify (VObject font)))) = true.
Proof. unfold after. rewrite fontFace_run. cbn [snd]. apply add_once_has. Qed.

Lemma fontFace_again font w :
  RuleMap.has (rules (this w))
              ("@font-face:" +:+ createHashName (interp (stableStringify (VObject font)))) = true ->
  fontFace process font w = (tt, w).
Proof. intros H. rewrite fontFace_run. by rewrite H. Qed.

(** X13. A description that was stored is not stored again when it comes
    back with its keys in another order: [css], [keyframes] and [fontFace]
    return what they returned and leave the runtime as it is, so the text
    kept is the one compiled from the first order. *)
Theorem reordered_description_adds_nothing (d1 d2 : obj) (w : Runtime) :
  reordered (VObject d1) (VObject d2) ->
  css process d2 (after (css process d1) w) =
    (result (css process d1) w, after (css process d1) w) /\
  keyframes process d2 (after (keyframes process d1) w) =
    (result (keyframes process d1) w, after (keyframes process d1) w) /\
  fontFace process d2 (after (fontFace process d1) w) =
    (tt, after (fontFace process d1) w).
Proof.
  intros Hr. pose proof (stableStringify_reordered _ _ Hr) as Hs.
  assert (Hn : forall p, className p (VObject d2) = className p (VObject d1)).
  { intros p. unfold className. by rewrite Hs. }
  split; [|split].
  - destruct (css_stored d1 w) as [Hh Hp].
    rewrite css_again; rewrite Hp, Hn; [|done]. by rewrite css_result.
  - destruct (keyframes_stored d1 w) as [Hh Hp].
    rewrite keyframes_again; rewrite Hp, Hn; [|done]. by rewrite keyframes_result.
  - apply fontFace_again. rewrite <- Hs. apply fontFace_stored.
Qed.


(** ** Keyframes *)

(** X14. [keyframes] names an animation the way [css] names a class: for
    the same object both return the same identifier. The two rules are
    stored under different keys, so both are kept. *)
Theorem keyframes_and_css_share_names (d : obj) (w : Runtime) :
  let name := result (css process d) w in
  let w' := after (keyframes process d) (after (css process d) w) in
  result (keyframes process d) w = name /\
  result (keyframes process d) (after (css process d) w) = name /\
  RuleMap.has (rules (this w')) ("class:" +:+ name) = true /\
  RuleMap.has (rules (this w')) ("@keyframes:" +:+ name) = true.
Proof.
  intros name w'. subst name w'. destruct (css_stored d w) as [Hh Hp].
  rewrite !keyframes_result, css_result, Hp.
  split; [done|]. split; [done|]. split.
  - unfold after at 1. rewrite keyframes_run. cbn [snd].
    destruct (RuleMap.has _ ("@keyframes:" +:+ _)); [done|].
    cbn [this rules]. rewrite RuleMapFacts.has_app, Hh. done.
  - destruct (keyframes_stored d (after (css process d) w)) as [Hk _].
    by rewrite Hp in Hk.
Qed.

Lemma keyframesBody_fold (frames : obj) (init : string) :
  fold_left
    (fun body p =>
       body +:+ fst p +:+ "{ " +:+ Js.join ";" (allDeclarations (snd p)) +:+ " }")
    frames init =
  init +:+ keyframesBody frames.
Proof.
  unfold keyframesBody. revert init.
  induction frames as [|p frames IH]; intros init; cbn [fold_left].
  - by rewrite append_nil_r.
  - rewrite IH, (IH ("" +:+ _)). by rewrite !append_assoc.
Qed.

(** X15. The body of a keyframes rule is its steps in the order of the
    object, each as [step{ declarations }]. A frame is written without the
    filter of [serializeNested]: every property gives a declaration (a
    [null], a nested object, a key with an underscore as well), and the
    two agree on a frame in which nothing would be passed over. *)
Theorem keyframes_body_steps (frames1 frames2 : obj) :
  keyframesBody (frames1 ++ frames2) = keyframesBody frames1 +:+ keyframesBody frames2 /\
  (forall step frame,
     keyframesBody [(step, frame)] =
       step +:+ "{ " +:+ Js.join ";" (allDeclarations frame) +:+ " }") /\
  (forall frame, length (allDeclarations frame) = length (forIn frame)) /\
  (forall o, forallb (fun p => negb (skipped p)) o = true ->
             allDeclarations (VObject o) = declarations (VObject o)).
Proof.
  split; [|split; [|split]].
  - unfold keyframesBody at 1. rewrite fold_left_app.
    fold (keyframesBody frames1). apply keyframesBody_fold.
  - done.
  - intros frame. unfold allDeclarations. by rewrite length_map.
  - intros o Ho. rewrite declarations_filter. unfold allDeclarations. cbn [forIn].
    f_equal. induction o as [|p o IH]; [done|]. cbn [forallb] in Ho.
    apply andb_true_iff in Ho as [Hp Ho]. cbn [List.filter]. rewrite Hp. f_equal. auto.
Qed.

(** ** Numbers that are not finite *)

Lemma stableStringify_single_null (k : string) (n : number) :
  nonFinite n = true ->
  stableStringify (VObject [(k, VNumber n)]) = stableStringify (VObject [(k, VNull)]).
Proof.
  intros Hn. rewrite !stableStringify_object. do 4 f_equal.
  apply map_ext. intros k'. f_equal. unfold obj_get. cbn [obj_lookup].
  destruct (String.eqb k k'); [|done]. by destruct n.
Qed.

(** X16. [JSON.stringify] writes [NaN] and the infinities as [null], so a
    description with such a number under a key has the class name of the
    description with [null] there, though the number is a declaration and
    [null] is none: once the one with [null] is stored, [css] of the other
    returns its name and compiles nothing. *)
Theorem non_finite_number_is_hashed_as_null
  (k : string) (n : number) (ctx : SerializeContext) (w : Runtime) :
  nonFinite n = true ->
  Js.startsWith "_" k = false ->
  result (css process [(k, VNumber n)]) w = result (css process [(k, VNull)]) w /\
  serializeNested (VObject [(k, VNull)]) ctx = "" /\
  contains (toKebabCase k +:+ ":" +:+ numberToString n)
           (serializeNested (VObject [(k, VNumber n)]) ctx) /\
  css process [(k, VNumber n)] (after (css process [(k, VNull)]) w) =
    (result (css process [(k, VNull)]) w, after (css process [(k, VNull)]) w).
Proof.
  intros Hn Hk. pose proof (stableStringify_single_null k n Hn) as Hs.
  assert (Hname : forall p, className p (VObject [(k, VNumber n)]) =
                            className p (VObject [(k, VNull)])).
  { intros p. unfold className. by rewrite Hs. }
  split; [by rewrite !css_result|]. split; [|split].
  - rewrite serializeNested_eq.
    assert (Hd : declarations (VObject [(k, VNull)]) = []) by done.
    rewrite Hd. cbn [ruleText PSEUDOS MEDIA_MAP map fst snd].
    rewrite !compileAt_single.
    by repeat match goal with |- context [String.eqb k ?r] => destruct (String.eqb k r) end.
  - rewrite serializeNested_eq. apply contains_append_l, ruleText_contains.
    apply (declarations_scalar [(k, VNumber n)] k (VNumber n)); [by left|done|done].
  - destruct (css_stored [(k, VNull)] w) as [Hh Hp].
    rewrite css_again; rewrite Hp, Hname; [|done]. by rewrite css_result.
Qed.


(** ** Repeating a global definition *)

Lemma obj_replace_same (o : obj) (k : string) (v : value) :
  obj_lookup o k = Some v -> obj_replace o k v = o.
Proof.
  induction o as [|[k0 v0] o IH]; [done|]. cbn [obj_lookup obj_replace].
  destruct (String.eqb k0 k); [by intros [= ->]|]. intros H. by rewrite IH.
Qed.

Lemma obj_set_same (o : obj) (k : string) (v : value) :
  obj_lookup o k = Some v -> obj_set o k v = o.
Proof. intros H. unfold obj_set, obj_has. rewrite H. by apply obj_replace_same. Qed.

Lemma obj_assign_same (t s : obj) :
  (forall k v, In (k, v) s -> obj_lookup t k = Some v) -> obj_assign t s = t.
Proof.
  unfold obj_assign. induction s as [|[k v] s IH]; intros H; [done|].
  cbn [fold_left fst snd]. rewrite obj_set_same by (apply H; by left).
  apply IH. intros k' v' Hin. apply H. by right.
Qed.

Lemma obj_lookup_In (o : obj) (k : string) (v : value) :
  NoDup (ownKeys o) -> In (k, v) o -> obj_lookup o k = Some v.
Proof.
  induction o as [|[k0 v0] o IH]; [done|]. cbn [ownKeys map fst].
  intros [Hnin Hnd]%NoDup_cons [[= -> ->]|Hin]; cbn [obj_lookup].
  - by rewrite String.eqb_refl.
  - destruct (String.eqb_spec k0 k) as [->|]; [|by apply IH].
    destruct Hnin. apply list_elem_of_In, in_map_iff. by exists (k, v).
Qed.

Lemma plainKeys_spread2 (a b : obj) : plainKeys a -> plainKeys b -> plainKeys (spread2 a b).
Proof.
  intros Ha Hb. split; [apply NoDup_spread2|].
  unfold spread2. rewrite obj_assign_keys, obj_assign_disjoint by done.
  apply Forall_app. split; [apply Ha|].
  destruct Hb as [_ Hb]. apply Forall_forall. intros k Hin.
  apply list_elem_of_In, List.filter_In in Hin as [Hin _].
  rewrite Forall_forall in Hb. by apply Hb, list_elem_of_In.
Qed.

Lemma spread2_again (a b : obj) :
  plainKeys a -> plainKeys b -> spread2 (spread2 a b) b = spread2 a b.
Proof.
  intros Ha Hb. unfold spread2 at 1.
  assert (Hid : obj_assign [] (spread2 a b) = spread2 a b).
  { apply (spread2_first (spread2 a b)). by apply plainKeys_spread2. }
  rewrite Hid. apply obj_assign_same. intros k v Hin.
  rewrite obj_lookup_spread2 by (apply Ha || apply Hb).
  by rewrite (obj_lookup_In b k v) by (apply Hb || done).
Qed.

(** X17. Giving [global] the same description twice is giving it once:
    the merge does not change and the rule, already last, stays last with
    the same text. *)
Theorem global_idempotent (sel : string) (d : obj) (w : Runtime) :
  cache_ok process w ->
  plainKeys (default [] (globalStore (this w) !! ("global:" +:+ sel))) ->
  plainKeys d ->
  this (after (global process sel d) (after (global process sel d) w)) =
  this (after (global process sel d) w).
Proof.
  intros Hok Hprev Hd.
  rewrite (global_this sel d (after (global process sel d) w)) by by apply global_cache_ok.
  rewrite global_this by done. unfold globalStep.
  cbn [prefix rules globalStore]. rewrite lookup_insert_eq.
  change (default [] (Some ?x)) with x.
  rewrite spread2_again by done.
  by rewrite insert_insert_eq, RuleMapFacts.delete_added.
Qed.

(** ** The reset *)

(** X18. On a new facade [resetStyle] stores four global rules, in this
    order and with these texts before the transform: the camel-case keys
    come out hyphenated, the vendor keys with their leading hyphen.
    Running it again leaves the facade as it is. *)
Theorem resetStyle_rules (p : string) :
  let w := after (resetStyle process) (fresh p) in
  rules (this w) =
    [ ("global:html,body", process "html,body{max-width:100vw;overflow-x:hidden}");
      ("global:body",
       process ("body{color:black;background:white;-moz-osx-font-smoothing:grayscale;"
                +:+ "-webkit-font-smoothing:antialiased;"
                +:+ "font-family:Arial, Helvetica, sans-serif}"));
      ("global:*,*::before,*::after",
       process "*,*::before,*::after{margin:0;padding:0;box-sizing:border-box}");
      ("global:a", process "a{color:inherit;text-decoration:none}") ] /\
  this (after (resetStyle process) w) = this w.
Proof.
  intros w.
  assert (Hthis : forall w0, cache_ok process w0 ->
    cache_ok process (after (resetStyle process) w0) /\
    this (after (resetStyle process) w0) =
      globalStep process
        (globalStep process
           (globalStep process
              (globalStep process (this w0) "html,body"
                 [ ("maxWidth", str "100vw"); ("overflowX", str "hidden") ])
              "body"
              [ ("color", str "black"); ("background", str "white");
                ("MozOsxFontSmoothing", str "grayscale");
                ("WebkitFontSmoothing", str "antialiased");
                ("fontFamily", str "Arial, Helvetica, sans-serif") ])
           "*,*::before,*::after"
           [ ("margin", num "0"); ("padding", num "0"); ("boxSizing", str "border-box") ])
        "a" [ ("color", str "inherit"); ("textDecoration", str "none") ]).
  { intros w0 H0. unfold resetStyle, after, bind. cbn [snd].
    repeat match goal with
    | |- context [snd (global process ?s ?d ?x)] =>
        change (snd (global process s d x)) with (after (global process s d) x)
    end.
    split; [by repeat apply global_cache_ok|].
    rewrite !global_this; try done; by repeat apply global_cache_ok. }
  destruct (Hthis (fresh p) (cache_ok_fresh process p)) as [Hok1 H1].
  destruct (Hthis w Hok1) as [_ H2].
  split.
  - subst w. rewrite H1. by vm_compute.
  - rewrite H2. subst w. rewrite H1. by vm_compute.
Qed.

(** ** The relation builder *)

(** X19. The pseudo states of a relation do not add up: choosing a state
    replaces the one chosen before, so the selector of a relation carries
    the last state only; the source is never changed. *)
Theorem relation_state_last_wins
  (b : RelationBuilder) (c : Combinator) (target : string) (style : obj) :
  Forall (fun choose =>
            Forall (fun before =>
                      choose (before b) = choose b /\
                      source (choose b) = source b /\
                      emit process (choose (before b)) c target style =
                        emit process (choose b) c target style)
                   [hover; focus; active])
         [hover; focus; active] /\
  relationSelector (focus (hover (when "a"))) c "b" =
    ".a:focus" +:+ combinatorText c +:+ ".b".
Proof. split; [by repeat constructor|by destruct c]. Qed.


(** ** The variant of [src/index.ts] *)

Lemma earlier_global_run sel style w :
  let key := "global:" +:+ sel in
  let raw := EarlierVariant.serializeNested (VObject style)
               {| selector := sel; media := None |} in
  let t := postcssTransform process raw w in
  EarlierVariant.global process sel style w =
    (tt, if RuleMap.has (rules (this w)) key then w
         else {| postcssCache := postcssCache (snd t);
                 this := {| prefix := prefix (this w);
                            rules := rules (this w) ++ [(key, fst t)];
                            globalStore := globalStore (this w) |} |}).
Proof.
  intros key raw t. unfold EarlierVariant.global, bind at 1, getThis. cbn [fst snd].
  fold key. fold raw. by rewrite add_once_run.
Qed.

Lemma earlier_global_noop sel style w :
  RuleMap.has (rules (this w)) ("global:" +:+ sel) = true ->
  EarlierVariant.global process sel style w = (tt, w).
Proof. intros H. rewrite earlier_global_run. by rewrite H. Qed.

Lemma earlier_global_has sel style w k :
  RuleMap.has (rules (this (after (EarlierVariant.global process sel style) w))) k =
  RuleMap.has (rules (this w)) k || String.eqb ("global:" +:+ sel) k.
Proof.
  unfold after. rewrite earlier_global_run. cbn [snd].
  destruct (RuleMap.has (rules (this w)) ("global:" +:+ sel)) eqn:E.
  - destruct (String.eqb_spec ("global:" +:+ sel) k) as [<-|]; [by rewrite E|].
    by rewrite orb_false_r.
  - cbn [this rules]. rewrite RuleMapFacts.has_app. f_equal.
    unfold RuleMap.has, RuleMap.is_key. cbn [existsb fst]. by rewrite orb_false_r.
Qed.

Lemma earlier_global_added sel style w :
  added_only w (after (EarlierVariant.global process sel style) w) ("global:" +:+ sel).
Proof.
  unfold after. rewrite earlier_global_run. cbn [snd].
  destruct (RuleMap.has _ _); [apply added_only_refl|].
  repeat split. eexists. split; [done|]. right. by eexists.
Qed.

(** X20. In the variant of [src/index.ts], the first definition of a
    global selector stays: a later [global] for the same selector returns
    without compiling and leaves the runtime as it is, and a [global]
    never changes or moves a rule that is stored, it adds at most one at
    the end. *)
Theorem earlier_global_first_wins (sel : string) (d1 d2 : obj) (w : Runtime) :
  EarlierVariant.global process sel d2 (after (EarlierVariant.global process sel d1) w) =
    (tt, after (EarlierVariant.global process sel d1) w) /\
  added_only w (after (EarlierVariant.global process sel d1) w) ("global:" +:+ sel) /\
  RuleMap.has (rules (this (after (EarlierVariant.global process sel d1) w)))
              ("global:" +:+ sel) = true.
Proof.
  assert (H : RuleMap.has (rules (this (after (EarlierVariant.global process sel d1) w)))
                          ("global:" +:+ sel) = true).
  { rewrite earlier_global_has, String.eqb_refl. apply orb_true_r. }
  split; [by apply earlier_global_noop|]. split; [apply earlier_global_added|done].
Qed.

(** X21. In that variant, [globalReset] settles its four selectors: run
    again it changes nothing, a [global] for [html,body], [body], [*] or
    [a] after it is without effect, and a rule that was stored before it,
    for one of these selectors too, keeps its text. *)
Theorem earlier_globalReset_settles (w : Runtime) :
  let w' := after (EarlierVariant.globalReset process) w in
  after (EarlierVariant.globalReset process) w' = w' /\
  (forall d,
     Forall (fun sel => EarlierVariant.global process sel d w' = (tt, w'))
            ["html,body"; "body"; "*"; "a"]) /\
  (forall k text,
     RuleMap.get (rules (this w)) k = Some text ->
     RuleMap.get (rules (this w')) k = Some text).
Proof.
  intros w'.
  assert (Hhas : Forall (fun sel => RuleMap.has (rules (this w')) ("global:" +:+ sel) = true)
                        ["html,body"; "body"; "*"; "a"]).
  { subst w'. unfold EarlierVariant.globalReset, after, bind. cbn [snd].
    repeat match goal with
    | |- context [snd (EarlierVariant.global process ?s ?d ?x)] =>
        change (snd (EarlierVariant.global process s d x))
          with (after (EarlierVariant.global process s d) x)
    end.
    repeat constructor; rewrite !earlier_global_has;
      cbn [String.eqb Ascii.eqb Bool.eqb append]; by rewrite ?orb_true_r. }
  assert (Hnoop : forall d,
            Forall (fun sel => EarlierVariant.global process sel d w' = (tt, w'))
                   ["html,body"; "body"; "*"; "a"]).
  { intros d. eapply Forall_impl; [exact Hhas|]. intros sel H. by apply earlier_global_noop. }
  split; [|split; [exact Hnoop|]].
  - unfold EarlierVariant.globalReset, after, bind. cbn [snd].
    pose proof (Hnoop [ ("maxWidth", str "100vw"); ("overflowX", str "hidden") ]) as H1.
    pose proof (Hnoop [ ("color", str "black"); ("background", str "white");
                        ("fontFamily", str "Arial, Helvetica, sans-serif");
                        ("WebkitFontSmoothing", str "antialiased");
                        ("MozOsxFontSmoothing", str "grayscale") ]) as H2.
    pose proof (Hnoop [ ("boxSizing", str "border-box"); ("padding", num "0");
                        ("margin", num "0") ]) as H3.
    pose proof (Hnoop [ ("color", str "inherit"); ("textDecoration", str "none") ]) as H4.
    apply Forall_cons in H1 as [H1 _].
    apply Forall_cons in H2 as [_ [H2 _]%Forall_cons].
    apply Forall_cons in H3 as [_ [_ [H3 _]%Forall_cons]%Forall_cons].
    apply Forall_cons in H4 as [_ [_ [_ [H4 _]%Forall_cons]%Forall_cons]%Forall_cons].
    rewrite H1. cbn [snd]. rewrite H2. cbn [snd]. rewrite H3. cbn [snd]. by rewrite H4.
  - intros k text Hget. subst w'.
    unfold EarlierVariant.globalReset, after, bind. cbn [snd].
    repeat match goal with
    | |- context [snd (EarlierVariant.global process ?s ?d ?x)] =>
        change (snd (EarlierVariant.global process s d x))
          with (after (EarlierVariant.global process s d) x)
    end.
    repeat (eapply added_only_get; [apply earlier_global_added|]). exact Hget.
Qed.


Lemma earlier_css_run style w :
  let name := className (prefix (this w)) (VObject style) in
  let key := "class:" +:+ name in
  let raw := EarlierVariant.serializeNested (VObject style)
               {| selector := "." +:+ name; media := None |} in
  let t := postcssTransform process raw w in
  EarlierVariant.css process style w =
    (name,
     if RuleMap.has (rules (this w)) key then w
     else {| postcssCache := postcssCache (snd t);
             this := {| prefix := prefix (this w);
                        rules := rules (this w) ++ [(key, fst t)];
                        globalStore := globalStore (this w) |} |}).
Proof.
  intros name key raw t. unfold EarlierVariant.css, bind at 1 2, getThis, ret. cbn [fst snd].
  change (prefix (this w) +:+ "_" +:+ createHashName (interp (stableStringify (VObject style))))
    with name.
  fold key. fold raw. by rewrite add_once_run.
Qed.

Lemma earlier_keyframes_run frames w :
  let name := className (prefix (this w)) (VObject frames) in
  let key := "@keyframes:" +:+ name in
  let raw := "@keyframes " +:+ name +:+ "{ " +:+ EarlierVariant.keyframesBody frames +:+ " }" in
  let t := postcssTransform process raw w in
  EarlierVariant.keyframes process frames w =
    (name,
     if RuleMap.has (rules (this w)) key then w
     else {| postcssCache := postcssCache (snd t);
             this := {| prefix := prefix (this w);
                        rules := rules (this w) ++ [(key, fst t)];
                        globalStore := globalStore (this w) |} |}).
Proof.
  intros name key raw t. unfold EarlierVariant.keyframes, bind at 1 2, getThis, ret.
  cbn [fst snd].
  change (prefix (this w) +:+ "_" +:+ createHashName (interp (stableStringify (VObject frames))))
    with name.
  fold key. fold raw. by rewrite add_once_run.
Qed.

Lemma earlier_fontFace_run font w :
  let key := "@font-face:" +:+ createHashName (interp (stableStringify (VObject font))) in
  let raw := "@font-face{ " +:+ Js.join "; " (allDeclarations (VObject font)) +:+ " }" in
  let t := postcssTransform process raw w in
  EarlierVariant.fontFace process font w =
    (tt,
     if RuleMap.has (rules (this w)) key then w
     else {| postcssCache := postcssCache (snd t);
             this := {| prefix := prefix (this w);
                        rules := rules (this w) ++ [(key, fst t)];
                        globalStore := globalStore (this w) |} |}).
Proof.
  intros key raw t. unfold EarlierVariant.fontFace, bind at 1, getThis. cbn [fst snd].
  fold key. fold raw. by rewrite add_once_run.
Qed.

Lemma exportText_app (m1 m2 : RuleMap.t) :
  joined (exportText (m1 ++ m2)) = joined (exportText m1) +:+ joined (exportText m2).
Proof.
  assert (H : forall m, joined (exportText m) =
            fold_left (fun cssText rule => cssText +:+ rule +:+ Js.newline)
                      (RuleMap.values m) "").
  { intros m. unfold exportText, RuleMap.size. by destruct m. }
  rewrite !H. unfold RuleMap.values. rewrite map_app, fold_left_app.
  by rewrite exportText_fold.
Qed.

Lemma added_only_export w w' key :
  added_only w w' key ->
  exists more, joined (result toTextCss w') = joined (result toTextCss w) +:+ more.
Proof.
  intros (_ & _ & added & Hr & _).
  unfold result, toTextCss, bind, getThis, ret. cbn [fst snd].
  rewrite Hr, exportText_app. by eexists.
Qed.

(** X22. In the variant of [src/index.ts] no operation changes or moves a
    stored rule: what [toTextCss] exported before [css], [global],
    [keyframes] or [fontFace] is the beginning of what it exports after. *)
Theorem earlier_export_only_grows (w : Runtime) :
  (forall style, exists more,
     joined (result toTextCss (after (EarlierVariant.css process style) w)) =
       joined (result toTextCss w) +:+ more) /\
  (forall sel style, exists more,
     joined (result toTextCss (after (EarlierVariant.global process sel style) w)) =
       joined (result toTextCss w) +:+ more) /\
  (forall frames, exists more,
     joined (result toTextCss (after (EarlierVariant.keyframes process frames) w)) =
       joined (result toTextCss w) +:+ more) /\
  (forall font, exists more,
     joined (result toTextCss (after (EarlierVariant.fontFace process font) w)) =
       joined (result toTextCss w) +:+ more).
Proof.
  assert (Honce : forall key text c,
            added_only w
              (if RuleMap.has (rules (this w)) key then w
               else {| postcssCache := c;
                       this := {| prefix := prefix (this w);
                                  rules := rules (this w) ++ [(key, text)];
                                  globalStore := globalStore (this w) |} |}) key).
  { intros key text c. destruct (RuleMap.has _ _); [apply added_only_refl|].
    repeat split. eexists. split; [done|]. right. by eexists. }
  split; [|split; [|split]].
  - intros style. unfold after. rewrite earlier_css_run. cbn [snd].
    eapply added_only_export, Honce.
  - intros sel style. eapply added_only_export, earlier_global_added.
  - intros frames. unfold after. rewrite earlier_keyframes_run. cbn [snd].
    eapply added_only_export, Honce.
  - intros font. unfold after. rewrite earlier_fontFace_run. cbn [snd].
    eapply added_only_export, Honce.
Qed.

End FacadeFacts.

(** * Concrete runs of the further properties *)

Lemma state_and_breakpoint_commute_witness :
  let inner := [("opacity", num "0.5")] in
  let ctx := {| selector := ".x"; media := None |} in
  let ctx' := {| selector := ".x:hover"; media := Some "(min-width:1024px)" |} in
  In "_hover" PSEUDOS /\
  In ("_lg", "(min-width:1024px)") MEDIA_MAP /\
  serializeNested (VObject [("_hover", VObject [("_lg", VObject inner)])]) ctx =
    serializeNested (VObject inner) ctx' /\
  serializeNested (VObject [("_lg", VObject [("_hover", VObject inner)])]) ctx =
    serializeNested (VObject inner) ctx'.
Proof.
  intros inner ctx ctx'.
  assert (Hp : In "_hover" PSEUDOS) by (left; reflexivity).
  assert (Hm : In ("_lg", "(min-width:1024px)") MEDIA_MAP)
    by (right; right; left; reflexivity).
  split; [exact Hp|]. split; [exact Hm|].
  exact (state_and_breakpoint_commute "_hover" ("_lg", "(min-width:1024px)") inner ctx Hp Hm).
Defined.

Lemma serializeNested_reads_witness :
  let hover := VObject [("opacity", num "0.5")] in
  let md := VObject [("color", str "blue")] in
  let o1 := [("color", str "red"); ("_md", md); ("_hover", hover); ("_foo", num "1")] in
  let o2 := [("_hover", hover); ("color", str "red"); ("gap", VNull); ("_md", md)] in
  let ctx := {| selector := ".x"; media := None |} in
  List.filter (fun p => negb (skipped p)) o1 = List.filter (fun p => negb (skipped p)) o2 /\
  (forall k, In k reservedKeys -> obj_get o1 k = obj_get o2 k) /\
  serializeNested (VObject o1) ctx = serializeNested (VObject o2) ctx.
Proof.
  intros hover md o1 o2 ctx.
  assert (Hd : List.filter (fun p => negb (skipped p)) o1 =
               List.filter (fun p => negb (skipped p)) o2) by reflexivity.
  assert (Hk : forall k, In k reservedKeys -> obj_get o1 k = obj_get o2 k).
  { intros k H. cbv [In reservedKeys PSEUDOS MEDIA_MAP map fst app] in H.
    repeat (destruct H as [<-|H]; [reflexivity|]). destruct H. }
  split; [exact Hd|]. split; [exact Hk|].
  exact (serializeNested_reads o1 o2 ctx Hd Hk).
Defined.


Lemma spread_keeps_first_places_witness :
  let a := [("margin", num "0"); ("color", str "red")] in
  let b := [("color", str "blue"); ("padding", num "0")] in
  plainKeys a /\ plainKeys b /\
  ownKeys (spread2 a b) =
    ownKeys a ++ List.filter (fun k => negb (obj_has a k)) (ownKeys b).
Proof.
  intros a b.
  assert (Ha : plainKeys a).
  { split; [apply (bool_decide_unpack _); by vm_compute|]. by repeat constructor. }
  assert (Hb : plainKeys b).
  { split; [apply (bool_decide_unpack _); by vm_compute|]. by repeat constructor. }
  split; [exact Ha|]. split; [exact Hb|].
  exact (proj1 (spread_keeps_first_places a b Ha Hb)).
Defined.

(** [{ ...{ margin: 0, color: "red" }, ...{ color: "blue", padding: 0 } }]. *)
Example spread_example :
  spread2 [("margin", num "0"); ("color", str "red")]
          [("color", str "blue"); ("padding", num "0")] =
  [("margin", num "0"); ("color", str "blue"); ("padding", num "0")].
Proof. reflexivity. Qed.


Lemma facade_independent_of_cache_witness :
  let w1 := fresh "next" in
  let w2 := {| postcssCache := {[ "x" := "x" ]}; this := create "next" |} in
  cache_ok identityTransform w1 /\
  cache_ok identityTransform w2 /\
  this w1 = this w2 /\
  (forall sel style,
     this (after (global identityTransform sel style) w1) =
     this (after (global identityTransform sel style) w2)).
Proof.
  intros w1 w2.
  assert (H1 : cache_ok identityTransform w1) by apply cache_ok_fresh.
  assert (H2 : cache_ok identityTransform w2).
  { intros t c H. cbn [w2 postcssCache] in H.
    by apply lookup_singleton_Some in H as [<- <-]. }
  split; [exact H1|]. split; [exact H2|]. split; [reflexivity|].
  exact (proj1 (proj2 (facade_independent_of_cache identityTransform w1 w2 H1 H2 eq_refl))).
Defined.

Lemma operations_keep_store_ok_witness :
  let w := fresh "next" in
  store_ok identityTransform w /\
  store_ok identityTransform (after (resetStyle identityTransform) w).
Proof.
  intros w.
  assert (H : store_ok identityTransform w) by apply store_ok_fresh.
  split; [exact H|].
  exact (proj1 (proj2 (proj2 (proj2 (operations_keep_store_ok identityTransform w H))))).
Defined.

Lemma global_first_definition_witness :
  let w := fresh "next" in
  let d1 := [("margin", num "0")] in
  let d2 := [("padding", num "0")] in
  let w1 := after (global identityTransform "body" d1) w in
  cache_ok identityTransform w /\
  globalStore (this w) !! ("global:" +:+ "body") = None /\
  plainKeys d1 /\
  this w1 =
    {| prefix := prefix (this w);
       rules := RuleMap.delete (rules (this w)) ("global:" +:+ "body") ++
                [("global:" +:+ "body",
                  identityTransform
                    (serializeNested (VObject d1) {| selector := "body"; media := None |}))];
       globalStore := <[("global:" +:+ "body") := d1]> (globalStore (this w)) |}.
Proof.
  intros w d1 d2 w1.
  assert (Hok : cache_ok identityTransform w) by apply cache_ok_fresh.
  assert (Hnone : globalStore (this w) !! ("global:" +:+ "body") = None) by reflexivity.
  assert (Hd : plainKeys d1).
  { split; [apply NoDup_singleton|]. by repeat constructor. }
  split; [exact Hok|]. split; [exact Hnone|]. split; [exact Hd|].
  exact (proj1 (global_first_definition identityTransform "body" d1 d2 w Hok Hnone Hd)).
Defined.

Lemma reordered_description_adds_nothing_witness :
  let d1 := [("a", num "1"); ("b", num "2")] in
  let d2 := [("b", num "2"); ("a", num "1")] in
  let w := fresh "next" in
  reordered (VObject d1) (VObject d2) /\
  css identityTransform d2 (after (css identityTransform d1) w) =
    (result (css identityTransform d1) w, after (css identityTransform d1) w).
Proof.
  intros d1 d2 w.
  assert (Hr : reordered (VObject d1) (VObject d2)).
  { apply (reordered_object d1 d2 d2).
    - apply (bool_decide_unpack _). by vm_compute.
    - apply Permutation_swap.
    - repeat constructor. }
  split; [exact Hr|].
  exact (proj1 (reordered_description_adds_nothing identityTransform d1 d2 w Hr)).
Defined.

Lemma non_finite_number_is_hashed_as_null_witness :
  let w := fresh "next" in
  nonFinite NaN = true /\
  Js.startsWith "_" "width" = false /\
  result (css identityTransform [("width", VNumber NaN)]) w =
    result (css identityTransform [("width", VNull)]) w.
Proof.
  intros w. split; [reflexivity|]. split; [reflexivity|].
  exact (proj1 (non_finite_number_is_hashed_as_null identityTransform "width" NaN
                  {| selector := ".x"; media := None |} w eq_refl eq_refl)).
Defined.

Lemma global_idempotent_witness :
  let w := fresh "next" in
  let d := [("margin", num "0")] in
  cache_ok identityTransform w /\
  plainKeys (default [] (globalStore (this w) !! ("global:" +:+ "body"))) /\
  plainKeys d /\
  this (after (global identityTransform "body" d)
              (after (global identityTransform "body" d) w)) =
  this (after (global identityTransform "body" d) w).
Proof.
  intros w d.
  assert (Hok : cache_ok identityTransform w) by apply cache_ok_fresh.
  assert (Hprev : plainKeys (default [] (globalStore (this w) !! ("global:" +:+ "body")))).
  { split; [apply NoDup_nil_2|constructor]. }
  assert (Hd : plainKeys d).
  { split; [apply NoDup_singleton|]. by repeat constructor. }
  split; [exact Hok|]. split; [exact Hprev|]. split; [exact Hd|].
  exact (global_idempotent identityTransform "body" d w Hok Hprev Hd).
Defined.
